(** * yodalib: the IDA adapter ([yodalib/decompilers/ida/interface.py])

    A shallow embedding of [IDAInterface] and a verification of its patch
    coalescer, its setters and its capability probe.

    Python objects are modelled as follows.
    - [int] is [Z]; [bytes] is [list byte]; [str] is [string]; [None] in an
      [Optional] is [None] of [option].
    - [patches], the dict filled by the visitor callback and then iterated,
      is an insertion-ordered association list ([dict_setitem]);
      [continuous_patches] and the returned dict, which are only looked up,
      are [gmap]s.
    - The IDA session reached through [idaapi], [idc] and [ida_hexrays] is the
      record [ida]; the helpers of [compat], which are not part of this
      file, are the fields of a record [compat_module].
    - A method that writes is a computation in the monad [M]: it threads the
      [session] and either returns a value or raises. *)

From stdpp Require Import gmap strings list fin_maps sorting.
From Stdlib Require Import ZArith Lia Strings.Byte.

Open Scope Z_scope.

(** ** Python values *)

Abbreviation bytes := (list byte).

#[global] Instance byte_eq_dec : EqDecision byte := Byte.byte_eq_dec.

(** The exceptions that matter for [except Exception]: everything but the
    last two constructors derives from [Exception]. *)
Inductive exn :=
| DecompilationFailure (info : string)
| RuntimeError (info : string)
| ValueError (info : string)
| KeyboardInterrupt
| SystemExit.

Definition isinstance_Exception (e : exn) : bool :=
  match e with
  | DecompilationFailure _ | RuntimeError _ | ValueError _ => true
  | KeyboardInterrupt | SystemExit => false
  end.

Inductive Result (A : Type) :=
| Return (a : A)
| Raise (e : exn).
Arguments Return {A} a.
Arguments Raise {A} e.

(** [d[k] = v] on a dict that is later iterated: an existing key keeps its
    place and gets the new value, a new key goes to the end. *)
Fixpoint dict_setitem {V : Type} (k : Z) (v : V) (d : list (Z * V)) : list (Z * V) :=
  match d with
  | [] => [(k, v)]
  | (k', v') :: d' =>
      if decide (k' = k) then (k, v) :: d' else (k', v') :: dict_setitem k v d'
  end.

(** ** yodalib.data *)

(** Modelled from the spec: [yodalib.data.FunctionHeader].  The artifact
    classes are imported by the adapter and declared elsewhere; they carry
    the fields of section 3 of the spec. *)
Record FunctionHeader := mkFunctionHeader {
  FunctionHeader_name : string;
  FunctionHeader_addr : Z }.

(** Modelled from the spec: [yodalib.data.Function]; its identity is [addr]. *)
Record Function := mkFunction {
  Function_addr : Z;
  Function_size : Z;
  Function_header : option FunctionHeader }.

(** Modelled from the spec: [yodalib.data.StackVariable], identified by the
    address of its function and its stack offset. *)
Record StackVariable := mkStackVariable {
  StackVariable_func_addr : Z;
  StackVariable_offset : Z;
  StackVariable_name : string;
  StackVariable_type : string }.

(** Modelled from the spec: [yodalib.data.GlobalVariable]. *)
Record GlobalVariable := mkGlobalVariable {
  GlobalVariable_addr : Z;
  GlobalVariable_name : string;
  GlobalVariable_size : Z }.

(** Modelled from the spec: a member of a [yodalib.data.Struct]. *)
Record StructMember := mkStructMember {
  StructMember_offset : Z;
  StructMember_name : string;
  StructMember_type : string;
  StructMember_size : Z }.

(** Modelled from the spec: [yodalib.data.Struct], identified by its name. *)
Record Struct := mkStruct {
  Struct_name : string;
  Struct_size : Z;
  Struct_members : list StructMember }.

(** Modelled from the spec: [yodalib.data.Enum], identified by its name. *)
Record Enum := mkEnum {
  Enum_name : string;
  Enum_members : list (string * Z) }.

(** Modelled from the spec: [yodalib.data.Comment]. *)
Record Comment := mkComment {
  Comment_addr : Z;
  Comment_comment : string;
  Comment_decompiled : bool }.

(** Modelled from the spec: [yodalib.data.Patch], the start address of a
    contiguous run and its bytes. *)
Record Patch := mkPatch {
  Patch_addr : Z;
  Patch_bytes : bytes }.

(** ** The IDA session *)

(** One patched byte as [idaapi.visit_patched_bytes] reports it to its
    callback: [(ea, fpos, org_val, patch_val)].  The two values are bytes,
    so [bytes([patch_val])] in the collector is always defined. *)
Record patched_byte := mkPatchedByte {
  pb_ea : Z;
  pb_fpos : Z;
  pb_org_val : byte;
  pb_patch_val : byte }.

(** What [ida_hexrays.decompile] returns; [str(cfunc)] is its pseudocode. *)
Record cfunc_t := mkCfunc {
  cfunc_pseudocode : string }.

(** The part of the IDA database the adapter reads and writes itself.
    [ida_patched] lists the patched bytes in the order in which
    [visit_patched_bytes] enumerates them. *)
Record ida := mkIda {
  ida_min_ea : option Z;
  ida_max_ea : option Z;
  ida_original_byte : Z → byte;
  ida_fileregion_offset : Z → Z;
  ida_patched : list patched_byte;
  ida_input_file_md5 : bytes;
  ida_hexrays_plugin : bool;
  ida_hexrays_decompile : Z → Result cfunc_t }.

Module idaapi.

Definition BADADDR : Z := 2 ^ 64 - 1.

Definition inf_get_min_ea (db : ida) : option Z := ida_min_ea db.
Definition inf_get_max_ea (db : ida) : option Z := ida_max_ea db.

(** The patched bytes with [ea1 <= ea < ea2], in enumeration order. *)
Definition patched_in (db : ida) (ea1 ea2 : Z) : list patched_byte :=
  filter (λ pb, ea1 ≤ pb_ea pb < ea2) (ida_patched db).

(** [visit_patched_bytes(ea1, ea2, cb)]: the callback runs once per patched
    byte of the range; the collector returns [None], so the visit never
    stops early. *)
Definition visit_patched_bytes {S : Type} (db : ida) (ea1 ea2 : Z)
    (cb : Z → Z → byte → byte → S → S) (s : S) : S :=
  foldl (λ s pb, cb (pb_ea pb) (pb_fpos pb) (pb_org_val pb) (pb_patch_val pb) s)
        s (patched_in db ea1 ea2).

(** The list of patched bytes after the byte at [ea] got the value [x]:
    address order is kept, an entry at [ea] is replaced. *)
Fixpoint put_patched (pb : patched_byte) (l : list patched_byte) : list patched_byte :=
  match l with
  | [] => [pb]
  | pb' :: l' =>
      if decide (pb_ea pb < pb_ea pb') then pb :: pb' :: l'
      else if decide (pb_ea pb = pb_ea pb') then pb :: l'
      else pb' :: put_patched pb l'
  end.

Definition set_patched (l : list patched_byte) (db : ida) : ida :=
  {| ida_min_ea := ida_min_ea db;
     ida_max_ea := ida_max_ea db;
     ida_original_byte := ida_original_byte db;
     ida_fileregion_offset := ida_fileregion_offset db;
     ida_patched := l;
     ida_input_file_md5 := ida_input_file_md5 db;
     ida_hexrays_plugin := ida_hexrays_plugin db;
     ida_hexrays_decompile := ida_hexrays_decompile db |}.

(** [patch_byte(ea, x)]: a byte set back to its original value is no
    longer a patched byte. *)
Definition patch_byte (ea : Z) (x : byte) (db : ida) : ida :=
  if decide (x = ida_original_byte db ea)
  then set_patched (filter (λ pb, pb_ea pb ≠ ea) (ida_patched db)) db
  else set_patched
         (put_patched (mkPatchedByte ea (ida_fileregion_offset db ea)
                                     (ida_original_byte db ea) x)
                      (ida_patched db)) db.

(** [patch_bytes(ea, buf)]: [buf[i]] is written at [ea + i]. *)
Fixpoint patch_bytes (ea : Z) (buf : bytes) (db : ida) : ida :=
  match buf with
  | [] => db
  | x :: buf' => patch_bytes (ea + 1) buf' (patch_byte ea x db)
  end.

End idaapi.

(** ** The patch coalescer *)

(** The three variables of the loop of [_collect_continuous_patches]. *)
Record coalescer := mkCoalescer {
  continuous_patches : gmap Z bytes;
  patch_start : option Z;
  last_pos : option Z }.

(** [continuous_patches[patch_start] += patch] on a [defaultdict(bytes)]. *)
Definition defaultdict_iadd (k : Z) (patch : bytes) (m : gmap Z bytes) : gmap Z bytes :=
  <[k := default [] (m !! k) ++ patch]> m.

(** The test [last_pos is None or pos != last_pos + 1]. *)
Definition starts_run (st : coalescer) (pos : Z) : bool :=
  match last_pos st with
  | None => true
  | Some lp => bool_decide (pos ≠ lp + 1)
  end.

(** [patch_start] after the [if]: [pos] when a run starts, else unchanged. *)
Definition next_patch_start (st : coalescer) (pos : Z) : option Z :=
  if starts_run st pos then Some pos else patch_start st.

(** The loop [for pos, patch in patches.items()], with its [break].
    The key [patch_start] of the update is an [int] in every iteration: it is
    assigned when [last_pos is None], and [last_pos] is set only after it
    ([coalesce_start_assigned]); the dict is left alone in the branch for
    [None], which is never taken. *)
Fixpoint coalesce (stop_after_first : bool) (items : list (Z * bytes))
    (st : coalescer) : coalescer :=
  match items with
  | [] => st
  | (pos, patch) :: items' =>
      let patch_start' := next_patch_start st pos in
      let should_break :=
        starts_run st pos && bool_decide (last_pos st ≠ None) && stop_after_first in
      let continuous_patches' :=
        match patch_start' with
        | Some k => defaultdict_iadd k patch (continuous_patches st)
        | None => continuous_patches st
        end in
      if should_break
      then mkCoalescer continuous_patches' patch_start' (last_pos st)
      else coalesce stop_after_first items'
             (mkCoalescer continuous_patches' patch_start' (Some pos))
  end.

(** The callback [_patch_collector]: [patches[ea] = bytes([patch_val])]. *)
Definition _patch_collector (ea fpos : Z) (org_val patch_val : byte)
    (patches : list (Z * bytes)) : list (Z * bytes) :=
  dict_setitem ea [patch_val] patches.

(** [{offset: Patch(offset, _bytes) for offset, _bytes in ...items()}]. *)
Definition normalize (m : gmap Z bytes) : gmap Z Patch :=
  map_imap (λ offset _bytes, Some (mkPatch offset _bytes)) m.

Definition _collect_continuous_patches (db : ida) (min_addr max_addr : option Z)
    (stop_after_first : bool) : gmap Z Patch :=
  let min_addr := match min_addr with None => idaapi.inf_get_min_ea db | a => a end in
  let max_addr := match max_addr with None => idaapi.inf_get_max_ea db | a => a end in
  match min_addr, max_addr with
  | Some min_addr, Some max_addr =>
      let patches := idaapi.visit_patched_bytes db min_addr max_addr _patch_collector [] in
      normalize (continuous_patches
                   (coalesce stop_after_first patches (mkCoalescer ∅ None None)))
  | _, _ => ∅
  end.

(** ** The adapter object and the session *)

(** The attributes of an [IDAInterface]; [headless] is inherited from
    [DecompilerInterface]. *)
Record IDAInterface := mkIDAInterface {
  _updated_ctx : option Function;
  _decompiler_available : option bool;
  _crashing_version : bool;
  _max_patch_size : Z;
  headless : bool }.

Definition __init__ (headless : bool) : IDAInterface :=
  {| _updated_ctx := None;
     _decompiler_available := None;
     _crashing_version := false;
     _max_patch_size := 0xff;
     headless := headless |}.

Inductive level := DEBUG | INFO | WARNING | ERROR | CRITICAL.

Record log_record := mkLogRecord {
  levelname : level;
  message : string }.

(** Everything a method can read or write: the adapter object, the IDA
    database, the records emitted through the module logger [_l], and the
    number of times [init_hexrays_plugin] has run. *)
Record session := mkSession {
  ses_self : IDAInterface;
  ses_db : ida;
  ses_log : list log_record;
  ses_hexrays_inits : nat }.

Definition M (A : Type) : Type := session → Result A * session.

#[global] Instance M_ret : MRet M := λ A a s, (Return a, s).
#[global] Instance M_bind : MBind M := λ A B f m s,
  match m s with
  | (Return a, s') => f a s'
  | (Raise e, s') => (Raise e, s')
  end.

Definition gets {A : Type} (f : session → A) : M A := λ s, (Return (f s), s).

Definition put_self (self : IDAInterface) : M unit := λ s,
  (Return (), mkSession self (ses_db s) (ses_log s) (ses_hexrays_inits s)).

Definition put_db (d : ida) : M unit := λ s,
  (Return (), mkSession (ses_self s) d (ses_log s) (ses_hexrays_inits s)).

(** A call into the backend: it may change the database and may raise. *)
Definition backend {A : Type} (f : ida → Result A * ida) : M A := λ s,
  let '(r, d) := f (ses_db s) in
  (r, mkSession (ses_self s) d (ses_log s) (ses_hexrays_inits s)).

(** [try: m except Exception: handler]. *)
Definition try_except_Exception {A : Type} (m handler : M A) : M A := λ s,
  match m s with
  | (Raise e, s') => if isinstance_Exception e then handler s' else (Raise e, s')
  | r => r
  end.

Module _l.
Definition critical (msg : string) : M unit := λ s,
  (Return (), mkSession (ses_self s) (ses_db s)
                        (ses_log s ++ [mkLogRecord CRITICAL msg])
                        (ses_hexrays_inits s)).
End _l.

Module ida_hexrays.
Definition init_hexrays_plugin : M bool := λ s,
  (Return (ida_hexrays_plugin (ses_db s)),
   mkSession (ses_self s) (ses_db s) (ses_log s) (S (ses_hexrays_inits s))).

Definition decompile (ea : Z) : M cfunc_t :=
  λ s, (ida_hexrays_decompile (ses_db s) ea, s).
End ida_hexrays.

Module idc.
Definition hex_digit (n : N) : Ascii.ascii :=
  Ascii.ascii_of_N (if (n <? 10)%N then 48 + n else 87 + n)%N.

(** [bytes.hex()]: two lowercase hexadecimal digits per byte. *)
Fixpoint hex (b : bytes) : string :=
  match b with
  | [] => EmptyString
  | x :: b' =>
      String (hex_digit (Byte.to_N x / 16))
             (String (hex_digit (Byte.to_N x mod 16)) (hex b'))
  end.

Definition retrieve_input_file_md5 (d : ida) : bytes := ida_input_file_md5 d.
End idc.

(** The functions of the module [compat] that the adapter calls.  They are
    defined outside this file: each may change the database and may raise,
    but none receives the adapter object. *)
Record compat_module := mkCompat {
  compat_ida_func_addr : Z → ida → Result (option Z) * ida;
  compat_get_func_name : Z → ida → Result string * ida;
  compat_get_binary_path : ida → Result (option string) * ida;
  compat_get_func_size : Z → ida → Result Z * ida;
  compat_jumpto : Z → ida → Result unit * ida;
  compat_set_function : Function → bool → bool → ida → Result bool * ida;
  compat_function : Z → bool → bool → ida → Result (option Function) * ida;
  compat_functions : ida → Result (gmap Z Function) * ida;
  compat_set_stack_variable : StackVariable → bool → bool → ida → Result bool * ida;
  compat_set_global_var_name : Z → string → ida → Result bool * ida;
  compat_global_var : Z → ida → Result (option GlobalVariable) * ida;
  compat_global_vars : ida → Result (gmap Z GlobalVariable) * ida;
  compat_set_ida_struct : Struct → ida → Result bool * ida;
  compat_set_ida_struct_member_types : Struct → ida → Result bool * ida;
  compat_struct : string → ida → Result (option Struct) * ida;
  compat_structs : ida → Result (gmap string Struct) * ida;
  compat_set_enum : Enum → ida → Result bool * ida;
  compat_enum : string → ida → Result (option Enum) * ida;
  compat_enums : ida → Result (gmap string Enum) * ida;
  compat_set_ida_comment : Z → string → bool → ida → Result bool * ida }.

(** ** The methods of [IDAInterface] *)

Definition set_updated_ctx (ctx : option Function) (self : IDAInterface) : IDAInterface :=
  {| _updated_ctx := ctx;
     _decompiler_available := _decompiler_available self;
     _crashing_version := _crashing_version self;
     _max_patch_size := _max_patch_size self;
     headless := headless self |}.

Definition set_decompiler_available (v : option bool) (self : IDAInterface) : IDAInterface :=
  {| _updated_ctx := _updated_ctx self;
     _decompiler_available := v;
     _crashing_version := _crashing_version self;
     _max_patch_size := _max_patch_size self;
     headless := headless self |}.

Definition _get_patch (self : IDAInterface) (d : ida) (addr : Z) : option Patch :=
  let patches :=
    _collect_continuous_patches d (Some (addr - 1))
      (Some (addr + _max_patch_size self)) true in
  patches !! addr.

Definition _patches (d : ida) : gmap Z Patch :=
  _collect_continuous_patches d None None false.

Section Methods.

Variable compat : compat_module.

Definition binary_hash : M string :=
  gets (λ s, idc.hex (idc.retrieve_input_file_md5 (ses_db s))).

Definition active_context : M (option Function) :=
  gets (λ s, _updated_ctx (ses_self s)).

Definition update_active_context (addr : Z) : M unit :=
  if bool_decide (addr = 0) || bool_decide (addr = idaapi.BADADDR) then mret ()
  else
    func_addr ← backend (compat_ida_func_addr compat addr);
    match func_addr with
    | None => mret ()
    | Some func_addr =>
        name ← backend (compat_get_func_name compat func_addr);
        let func := mkFunction func_addr 0 (Some (mkFunctionHeader name func_addr)) in
        self ← gets ses_self;
        put_self (set_updated_ctx (Some func) self)
    end.

Definition binary_path : M (option string) :=
  backend (compat_get_binary_path compat).

Definition get_func_size (func_addr : Z) : M Z :=
  backend (compat_get_func_size compat func_addr).

Definition goto_address (func_addr : Z) : M unit :=
  backend (compat_jumpto compat func_addr).

(** The property [decompiler_available]. *)
Definition decompiler_available : M bool :=
  self ← gets ses_self;
  match _decompiler_available self with
  | None =>
      b ← ida_hexrays.init_hexrays_plugin;
      put_self (set_decompiler_available (Some b) self);;
      mret b
  | Some b => mret b
  end.

Definition _decompile (function : Function) : M (option string) :=
  try_except_Exception
    (cfunc ← ida_hexrays.decompile (Function_addr function);
     mret (Some (cfunc_pseudocode cfunc)))
    (mret None).

Definition _set_function (func : Function) : M bool :=
  h ← gets (λ s, headless (ses_self s));
  da ← decompiler_available;
  backend (compat_set_function compat func h da).

Definition _get_function (addr : Z) : M (option Function) :=
  h ← gets (λ s, headless (ses_self s));
  da ← decompiler_available;
  backend (compat_function compat addr h da).

Definition _functions : M (gmap Z Function) :=
  backend (compat_functions compat).

Definition _set_stack_variable (svar : StackVariable) : M bool :=
  h ← gets (λ s, headless (ses_self s));
  da ← decompiler_available;
  backend (compat_set_stack_variable compat svar h da).

Definition _set_global_variable (gvar : GlobalVariable) : M bool :=
  if bool_decide (GlobalVariable_name gvar ≠ "")
  then backend (compat_set_global_var_name compat (GlobalVariable_addr gvar)
                                           (GlobalVariable_name gvar))
  else mret false.

Definition _get_global_var (addr : Z) : M (option GlobalVariable) :=
  backend (compat_global_var compat addr).

Definition _global_vars : M (gmap Z GlobalVariable) :=
  backend (compat_global_vars compat).

Definition _set_struct (struct : Struct) (header members : bool) : M bool :=
  let data_changed := false in
  self ← gets ses_self;
  if _crashing_version self && bool_decide (Struct_name struct = "gcc_va_list")
  then
    _l.critical ("Syncing the struct " +:+ Struct_name struct
                 +:+ " in IDA Pro 8.2 <= will cause a crash. Skipping...");;
    mret false
  else
    data_changed ←
      (if header
       then b ← backend (compat_set_ida_struct compat struct);
            mret (data_changed || b)
       else mret data_changed);
    data_changed ←
      (if members
       then b ← backend (compat_set_ida_struct_member_types compat struct);
            mret (data_changed || b)
       else mret data_changed);
    mret data_changed.

Definition _get_struct (name : string) : M (option Struct) :=
  backend (compat_struct compat name).

Definition _structs : M (gmap string Struct) :=
  backend (compat_structs compat).

Definition _set_enum (enum : Enum) : M bool :=
  backend (compat_set_enum compat enum).

Definition _get_enum (name : string) : M (option Enum) :=
  backend (compat_enum compat name).

Definition _enums : M (gmap string Enum) :=
  backend (compat_enums compat).

Definition _set_patch (patch : Patch) : M bool :=
  d ← gets ses_db;
  put_db (idaapi.patch_bytes (Patch_addr patch) (Patch_bytes patch) d);;
  mret true.

Definition _set_comment (comment : Comment) : M bool :=
  backend (compat_set_ida_comment compat (Comment_addr comment)
                                  (Comment_comment comment)
                                  (Comment_decompiled comment)).

Definition _get_comment (addr : Z) : M (option Comment) := mret None.

Definition _comments : M (gmap Z Comment) := mret ∅.

Definition _set_function_header (fheader : FunctionHeader) : M bool := mret false.

(** One call of a method of the adapter, with its arguments. *)
Inductive call :=
| call_binary_hash
| call_active_context
| call_update_active_context (addr : Z)
| call_binary_path
| call_get_func_size (func_addr : Z)
| call_goto_address (func_addr : Z)
| call_decompiler_available
| call__decompile (function : Function)
| call__set_function (func : Function)
| call__get_function (addr : Z)
| call__functions
| call__set_stack_variable (svar : StackVariable)
| call__set_global_variable (gvar : GlobalVariable)
| call__get_global_var (addr : Z)
| call__global_vars
| call__set_struct (struct : Struct) (header members : bool)
| call__get_struct (name : string)
| call__structs
| call__set_enum (enum : Enum)
| call__get_enum (name : string)
| call__enums
| call__set_patch (patch : Patch)
| call__get_patch (addr : Z)
| call__patches
| call__set_comment (comment : Comment)
| call__get_comment (addr : Z)
| call__comments
| call__set_function_header (fheader : FunctionHeader)
| call__collect_continuous_patches (min_addr max_addr : option Z) (stop_after_first : bool).

(** The session after a method has run, whether it returned or raised. *)
Definition after {A : Type} (m : M A) (s : session) : session := (m s).2.

Definition exec (c : call) : session → session :=
  match c with
  | call_binary_hash => after binary_hash
  | call_active_context => after active_context
  | call_update_active_context addr => after (update_active_context addr)
  | call_binary_path => after binary_path
  | call_get_func_size a => after (get_func_size a)
  | call_goto_address a => after (goto_address a)
  | call_decompiler_available => after decompiler_available
  | call__decompile f => after (_decompile f)
  | call__set_function f => after (_set_function f)
  | call__get_function a => after (_get_function a)
  | call__functions => after _functions
  | call__set_stack_variable sv => after (_set_stack_variable sv)
  | call__set_global_variable gv => after (_set_global_variable gv)
  | call__get_global_var a => after (_get_global_var a)
  | call__global_vars => after _global_vars
  | call__set_struct st h m => after (_set_struct st h m)
  | call__get_struct n => after (_get_struct n)
  | call__structs => after _structs
  | call__set_enum e => after (_set_enum e)
  | call__get_enum n => after (_get_enum n)
  | call__enums => after _enums
  | call__set_patch p => after (_set_patch p)
  | call__get_patch a => after (gets (λ s, _get_patch (ses_self s) (ses_db s) a))
  | call__patches => after (gets (λ s, _patches (ses_db s)))
  | call__set_comment c => after (_set_comment c)
  | call__get_comment a => after (_get_comment a)
  | call__comments => after _comments
  | call__set_function_header fh => after (_set_function_header fh)
  | call__collect_continuous_patches lo hi saf =>
      after (gets (λ s, _collect_continuous_patches (ses_db s) lo hi saf))
  end.

End Methods.

(** A fresh session: the adapter right after [__init__]. *)
Definition new_session (h : bool) (d : ida) : session :=
  mkSession (__init__ h) d [] 0.

(** ** Reference notions for the coalescer *)

(** A byte-edit fact of the spec: an address and the patched byte there. *)
Definition fact_of (pb : patched_byte) : Z * byte := (pb_ea pb, pb_patch_val pb).

(** The facts the coalescer is given for a range, in enumeration order. *)
Definition facts_in (d : ida) (ea1 ea2 : Z) : list (Z * byte) :=
  fact_of <$> idaapi.patched_in d ea1 ea2.

(** The entry of [patches] a fact becomes. *)
Definition item_of (f : Z * byte) : Z * bytes := (f.1, [f.2]).

Definition strictly_increasing (eas : list Z) : Prop := StronglySorted Z.lt eas.

(** The maximal contiguous runs of a list of facts, following the glossary
    of the spec: a run is a maximal address-adjacent sequence of patched
    bytes; it is given by its start and its bytes in address order. *)
Fixpoint runs (facts : list (Z * byte)) : list (Z * bytes) :=
  match facts with
  | [] => []
  | (ea, v) :: rest =>
      match runs rest with
      | (s, bs) :: rs =>
          if decide (s = ea + 1) then (ea, v :: bs) :: rs
          else (ea, [v]) :: (s, bs) :: rs
      | [] => [(ea, [v])]
      end
  end.

(** The facts a run stands for: its bytes at consecutive addresses. *)
Fixpoint facts_of_run (s : Z) (bs : bytes) : list (Z * byte) :=
  match bs with
  | [] => []
  | v :: bs' => (s, v) :: facts_of_run (s + 1) bs'
  end.

Definition patch_of_run (r : Z * bytes) : Z * Patch := (r.1, mkPatch r.1 r.2).

(** The byte at [ea] is patched in the database. *)
Definition patched_at (d : ida) (ea : Z) : Prop := ea ∈ pb_ea <$> ida_patched d.

(** The database used in the examples: patched bytes with the given
    addresses and values, queried over the whole address space. *)
Definition ida_with (l : list (Z * byte)) : ida :=
  {| ida_min_ea := Some 0;
     ida_max_ea := Some (2 ^ 64);
     ida_original_byte := λ _, x00;
     ida_fileregion_offset := λ ea, ea;
     ida_patched := (λ f, mkPatchedByte f.1 f.1 x00 f.2) <$> l;
     ida_input_file_md5 := [];
     ida_hexrays_plugin := true;
     ida_hexrays_decompile := λ _, Raise (DecompilationFailure "") |}.

(** What the loop has built when it stops at the first gap: the first run,
    and the first byte of the second one. *)
Definition first_run_and_gap (rs : list (Z * bytes)) : list (Z * bytes) :=
  match rs with
  | r1 :: (s2, bs2) :: _ => [r1; (s2, take 1 bs2)]
  | _ => rs
  end.

(** The state of the loop after the fact at [lp]: the run that started at
    [ps] has the bytes [cur] and ends at [lp], and no key lies beyond. *)
Definition open_run (cp : gmap Z bytes) (ps lp : Z) (cur : bytes) : Prop :=
  cp !! ps = Some cur ∧ cur ≠ [] ∧ ps + Z.of_nat (length cur) = lp + 1 ∧
  ∀ k, is_Some (cp !! k) → k ≤ lp.

(** ** Reference notions for the capability probe *)

(** How the cached probe may evolve from [s] to [s']: a cached value stays
    and nothing is probed; an empty cache stays empty with nothing probed,
    or it is filled by exactly one probe. *)
Definition probe_step (s s' : session) : Prop :=
  match _decompiler_available (ses_self s) with
  | Some b =>
      _decompiler_available (ses_self s') = Some b
      ∧ ses_hexrays_inits s' = ses_hexrays_inits s
  | None =>
      (_decompiler_available (ses_self s') = None
       ∧ ses_hexrays_inits s' = ses_hexrays_inits s)
      ∨ (∃ b, _decompiler_available (ses_self s') = Some b
              ∧ ses_hexrays_inits s' = S (ses_hexrays_inits s))
  end.

(** A computation whose every run is a [probe_step]. *)
Definition probe_sound {A : Type} (m : M A) : Prop :=
  ∀ s, probe_step s (m s).2.

(** The session after a sequence of method calls. *)
Definition exec_all (compat : compat_module) (calls : list call) (s : session) : session :=
  foldl (λ s c, exec compat c s) s calls.

(** A backend whose helpers always succeed and report a change; it is used
    to run the adapter on concrete inputs. *)
Definition compat_example : compat_module :=
  {| compat_ida_func_addr := λ addr d, (Return (Some addr), d);
     compat_get_func_name := λ _ d, (Return "sub_401000", d);
     compat_get_binary_path := λ d, (Return (Some "/tmp/fauxware"), d);
     compat_get_func_size := λ _ d, (Return 16, d);
     compat_jumpto := λ _ d, (Return (), d);
     compat_set_function := λ _ _ _ d, (Return true, d);
     compat_function := λ _ _ _ d, (Return None, d);
     compat_functions := λ d, (Return ∅, d);
     compat_set_stack_variable := λ _ _ _ d, (Return true, d);
     compat_set_global_var_name := λ _ _ d, (Return true, d);
     compat_global_var := λ _ d, (Return None, d);
     compat_global_vars := λ d, (Return ∅, d);
     compat_set_ida_struct := λ _ d, (Return true, d);
     compat_set_ida_struct_member_types := λ st d,
       (Return true, idaapi.patch_bytes 0 [x01] d);
     compat_struct := λ _ d, (Return None, d);
     compat_structs := λ d, (Return ∅, d);
     compat_set_enum := λ _ d, (Return true, d);
     compat_enum := λ _ d, (Return None, d);
     compat_enums := λ d, (Return ∅, d);
     compat_set_ida_comment := λ _ _ _ d, (Raise (RuntimeError "no comment"), d) |}.

(** ** Concrete inputs *)

(** The example of the spec: patched bytes at 10, 11, 12, 20, 21 and 30 with
    the values [a] to [f]. *)
Definition spec_example : ida :=
  ida_with [(10, x61); (11, x62); (12, x63); (20, x64); (21, x65); (30, x66)].

(** A session on a version of IDA that is known to crash. *)
Definition crashing_session : session :=
  mkSession (mkIDAInterface None None true 0xff false) (ida_with []) [] 0.

(** A database in which the byte at 10 is patched to [0x41]. *)
Definition patched_example : ida := ida_with [(10, x41)].

(** A session in which [decompiler_available] has been read once, and a
    sequence of method calls to run on it. *)
Definition probed_session : session :=
  (decompiler_available (new_session false spec_example)).2.

Definition example_calls : list call :=
  [ call__set_function (mkFunction 0x401000 16 None);
    call__set_struct (mkStruct "gcc_va_list" 24 []) true true;
    call_update_active_context 0x401000;
    call__set_comment (mkComment 0x401000 "entry" false);
    call__set_patch (mkPatch 0x401000 [x90]);
    call_decompiler_available ].

(** A database whose decompiler answers at one address. *)
Definition decompiling_example : ida :=
  {| ida_min_ea := Some 0;
     ida_max_ea := Some (2 ^ 64);
     ida_original_byte := λ _, x00;
     ida_fileregion_offset := λ ea, ea;
     ida_patched := [];
     ida_input_file_md5 := [];
     ida_hexrays_plugin := true;
     ida_hexrays_decompile := λ ea,
       if decide (ea = 0x401000) then Return (mkCfunc "int main() { return 0; }")
       else Raise (DecompilationFailure "no function") |}.

(** ** Reference notions for the further properties *)

(** [bs] is a maximal run of the facts [F] that starts at [k]: it is not
    empty, its bytes are the patched values at [k], [k + 1], ..., and
    neither the address before it nor the address after it is patched. *)
Definition is_run (F : list (Z * byte)) (k : Z) (bs : bytes) : Prop :=
  bs ≠ []
  ∧ (∀ (i : nat) (x : byte), bs !! i = Some x → (k + Z.of_nat i, x) ∈ F)
  ∧ ((k - 1) ∉ F.*1)
  ∧ ((k + Z.of_nat (length bs)) ∉ F.*1).

(** A computation whose every run relates the session before it to the
    session after it by [R]. *)
Definition step_sound {A : Type} (R : session → session → Prop) (m : M A) : Prop :=
  ∀ s, R s (m s).2.

(** The context that [update_active_context] stores for the function at
    [fa] with the name [name]. *)
Definition context_of (fa : Z) (name : string) : Function :=
  mkFunction fa 0 (Some (mkFunctionHeader name fa)).

(** How the adapter object and the log may evolve from [s] to [s']: the
    attributes set in [__init__] stay, the context stays or is one built by
    [update_active_context], and the log gets records of level [CRITICAL]
    only, and only on a crashing version. *)
Definition adapter_step (s s' : session) : Prop :=
  _crashing_version (ses_self s') = _crashing_version (ses_self s)
  ∧ _max_patch_size (ses_self s') = _max_patch_size (ses_self s)
  ∧ headless (ses_self s') = headless (ses_self s)
  ∧ (_updated_ctx (ses_self s') = _updated_ctx (ses_self s)
     ∨ ∃ fa name, _updated_ctx (ses_self s') = Some (context_of fa name))
  ∧ ∃ l, ses_log s' = ses_log s ++ l
         ∧ Forall (λ r, levelname r = CRITICAL) l
         ∧ (l = [] ∨ _crashing_version (ses_self s) = true).

(** The session [s] with the database [d]. *)
Definition with_db (d : ida) (s : session) : session :=
  mkSession (ses_self s) d (ses_log s) (ses_hexrays_inits s).

(** The characters of a lowercase hexadecimal string. *)
Definition hex_digits : list Ascii.ascii :=
  String.list_ascii_of_string "0123456789abcdef".

(** The value a read of [decompiler_available] gives in the session [s]:
    the cached one, or else the answer of the probe. *)
Definition probed (s : session) : bool :=
  default (ida_hexrays_plugin (ses_db s)) (_decompiler_available (ses_self s)).

(** A database with an input file digest of four bytes. *)
Definition hashed_example : ida :=
  {| ida_min_ea := Some 0;
     ida_max_ea := Some (2 ^ 64);
     ida_original_byte := λ _, x00;
     ida_fileregion_offset := λ ea, ea;
     ida_patched := [];
     ida_input_file_md5 := [xde; xad; xbe; xef];
     ida_hexrays_plugin := false;
     ida_hexrays_decompile := λ _, Raise (DecompilationFailure "") |}.

(** * Proofs *)

(** ** The dict filled by the visitor *)

Lemma dict_setitem_fresh {V : Type} (k : Z) (v : V) (d : list (Z * V)) :
  k ∉ d.*1 → dict_setitem k v d = d ++ [(k, v)].
Proof.
  induction d as [|[k' v'] d IH]; simpl; [done|].
  intros Hk. apply not_elem_of_cons in Hk as [Hne Hk].
  destruct (decide (k' = k)) as [->|_]; [done|]. by rewrite IH.
Qed.

Lemma strictly_increasing_cons (x : Z) (l : list Z) :
  strictly_increasing (x :: l) ↔ Forall (Z.lt x) l ∧ strictly_increasing l.
Proof. apply StronglySorted_cons. Qed.

Lemma strictly_increasing_NoDup (l : list Z) : strictly_increasing l → NoDup l.
Proof.
  induction l as [|x l IH]; [constructor|].
  rewrite strictly_increasing_cons. intros [Hx Hl]. constructor; [|by apply IH].
  intros Hin. rewrite Forall_forall in Hx. specialize (Hx _ Hin). lia.
Qed.

Lemma strictly_increasing_filter (P : patched_byte → Prop) `{!∀ x, Decision (P x)}
    (l : list patched_byte) :
  strictly_increasing (pb_ea <$> l) → strictly_increasing (pb_ea <$> filter P l).
Proof.
  induction l as [|pb l IH]; simpl; [done|].
  rewrite strictly_increasing_cons. intros [Hx Hl].
  rewrite filter_cons. destruct (decide (P pb)); [|by apply IH].
  rewrite fmap_cons. apply strictly_increasing_cons. split; [|by apply IH].
  rewrite Forall_fmap in Hx |- *. rewrite Forall_forall in Hx |- *.
  intros y Hy. apply list_elem_of_filter in Hy as [_ Hy]. by apply Hx.
Qed.

Lemma collect_items (l : list patched_byte) (d0 : list (Z * bytes)) :
  NoDup (d0.*1 ++ (pb_ea <$> l)) →
  foldl (λ s pb, _patch_collector (pb_ea pb) (pb_fpos pb) (pb_org_val pb)
                                  (pb_patch_val pb) s) d0 l
  = d0 ++ (item_of <$> (fact_of <$> l)).
Proof.
  revert d0. induction l as [|pb l IH]; intros d0 Hnd; simpl.
  - by rewrite app_nil_r.
  - unfold _patch_collector at 2.
    rewrite dict_setitem_fresh.
    + rewrite IH.
      * by rewrite <- app_assoc.
      * rewrite fmap_app. simpl. by rewrite <- app_assoc.
    + apply NoDup_app in Hnd as (_ & Hd & _). intros Hin.
      apply (Hd _ Hin). simpl. left.
Qed.

Lemma visit_patched_bytes_items (d : ida) (ea1 ea2 : Z) :
  strictly_increasing (pb_ea <$> ida_patched d) →
  idaapi.visit_patched_bytes d ea1 ea2 _patch_collector []
  = item_of <$> facts_in d ea1 ea2.
Proof.
  intros Hs. unfold idaapi.visit_patched_bytes, facts_in.
  rewrite collect_items; [done|]. simpl.
  apply strictly_increasing_NoDup. unfold idaapi.patched_in.
  by apply strictly_increasing_filter.
Qed.

(** ** Properties of [runs] *)

Lemma runs_cons_head (ea : Z) (v : byte) (rest : list (Z * byte)) :
  ∃ bs rs, runs ((ea, v) :: rest) = (ea, v :: bs) :: rs.
Proof.
  simpl. destruct (runs rest) as [|[s bs] rs]; [by eexists _, _|].
  destruct (decide (s = ea + 1)); by eexists _, _.
Qed.

Lemma runs_starts (facts : list (Z * byte)) (r : Z * bytes) :
  r ∈ runs facts → r.1 ∈ facts.*1.
Proof.
  revert r. induction facts as [|[ea v] rest IH]; intros r; simpl.
  - by intros ?%elem_of_nil.
  - destruct (runs rest) as [|[s bs] rs].
    + intros ->%list_elem_of_singleton. left.
    + destruct (decide (s = ea + 1)).
      * intros [->|Hr]%elem_of_cons; [left|].
        right. apply IH. by right.
      * intros [->|Hr]%elem_of_cons; [left|].
        right. by apply IH.
Qed.

Lemma runs_lookup_below (facts : list (Z * byte)) (lp k : Z) :
  Forall (λ f, lp < f.1) facts → k ≤ lp →
  (list_to_map (runs facts) : gmap Z bytes) !! k = None.
Proof.
  intros Hf Hk. apply not_elem_of_list_to_map_1. intros Hin.
  apply list_elem_of_fmap in Hin as (r & -> & Hr).
  apply runs_starts, list_elem_of_fmap in Hr as (f & Heq & Hf').
  rewrite Forall_forall in Hf. specialize (Hf _ Hf'). lia.
Qed.

Lemma facts_of_run_snoc (s : Z) (bs : bytes) (v : byte) :
  facts_of_run s (bs ++ [v]) = facts_of_run s bs ++ [(s + Z.of_nat (length bs), v)].
Proof.
  revert s. induction bs as [|x bs IH]; intros s; simpl.
  - by rewrite Z.add_0_r.
  - rewrite IH. do 4 f_equal. lia.
Qed.

Lemma runs_app_gap (s : Z) (bs : bytes) (ea : Z) (v : byte) (rest : list (Z * byte)) :
  bs ≠ [] → ea ≠ s + Z.of_nat (length bs) →
  runs (facts_of_run s bs ++ (ea, v) :: rest) = (s, bs) :: runs ((ea, v) :: rest).
Proof.
  revert s. induction bs as [|x bs IH]; intros s Hne Hgap; [done|].
  destruct bs as [|y bs].
  - change (facts_of_run s [x] ++ (ea, v) :: rest) with ((s, x) :: (ea, v) :: rest).
    destruct (runs_cons_head ea v rest) as (bs' & rs & Heq).
    change (runs ((s, x) :: (ea, v) :: rest)) with
      (match runs ((ea, v) :: rest) with
       | (s', bs'') :: rs' =>
           if decide (s' = s + 1) then (s, x :: bs'') :: rs'
           else (s, [x]) :: (s', bs'') :: rs'
       | [] => [(s, [x])]
       end).
    rewrite Heq. simpl in Hgap. destruct (decide (ea = s + 1)); [lia|done].
  - change (facts_of_run s (x :: y :: bs) ++ (ea, v) :: rest) with
      ((s, x) :: (facts_of_run (s + 1) (y :: bs) ++ (ea, v) :: rest)).
    change (runs ((s, x) :: (facts_of_run (s + 1) (y :: bs) ++ (ea, v) :: rest))) with
      (match runs (facts_of_run (s + 1) (y :: bs) ++ (ea, v) :: rest) with
       | (s', bs'') :: rs' =>
           if decide (s' = s + 1) then (s, x :: bs'') :: rs'
           else (s, [x]) :: (s', bs'') :: rs'
       | [] => [(s, [x])]
       end).
    rewrite IH; [|done|simpl in *; lia].
    by rewrite decide_True.
Qed.

Lemma runs_facts_of_run (s : Z) (bs : bytes) :
  bs ≠ [] → runs (facts_of_run s bs) = [(s, bs)].
Proof.
  revert s. induction bs as [|x bs IH]; intros s Hne; [done|].
  destruct bs as [|y bs]; [done|].
  change (runs (facts_of_run s (x :: y :: bs))) with
    (match runs (facts_of_run (s + 1) (y :: bs)) with
     | (s', bs'') :: rs' =>
         if decide (s' = s + 1) then (s, x :: bs'') :: rs'
         else (s, [x]) :: (s', bs'') :: rs'
     | [] => [(s, [x])]
     end).
  rewrite IH; [|done]. by rewrite decide_True.
Qed.

Lemma union_insert_absorb (m1 m2 : gmap Z bytes) (k : Z) (x : bytes) :
  is_Some (m1 !! k) → m1 ∪ <[k := x]> m2 = m1 ∪ m2.
Proof.
  intros [y Hy]. apply map_eq. intros i.
  destruct (decide (i = k)) as [->|Hne].
  - by rewrite !(lookup_union_Some_l _ _ _ y).
  - destruct (m1 !! i) as [z|] eqn:Hi.
    + by rewrite !(lookup_union_Some_l _ _ _ z).
    + rewrite !lookup_union_r by done. by rewrite lookup_insert_ne.
Qed.

Lemma runs_flatten (facts : list (Z * byte)) :
  concat ((λ r, facts_of_run r.1 r.2) <$> runs facts) = facts.
Proof.
  induction facts as [|[ea v] rest IH]; [done|]. simpl.
  destruct (runs rest) as [|[s bs] rs].
  - simpl in *. by rewrite <- IH.
  - destruct (decide (s = ea + 1)) as [->|Hne]; simpl in *; by rewrite <- IH.
Qed.

Lemma runs_nonempty (facts : list (Z * byte)) (r : Z * bytes) :
  r ∈ runs facts → r.2 ≠ [].
Proof.
  revert r. induction facts as [|[ea v] rest IH]; intros r; simpl.
  - by intros ?%elem_of_nil.
  - destruct (runs rest) as [|[s bs] rs].
    + by intros ->%list_elem_of_singleton.
    + destruct (decide (s = ea + 1)).
      * intros [->|Hr]%elem_of_cons; [done|]. apply IH. by right.
      * intros [->|Hr]%elem_of_cons; [done|]. by apply IH.
Qed.

Lemma runs_starts_sublist (facts : list (Z * byte)) :
  (runs facts).*1 `sublist_of` facts.*1.
Proof.
  induction facts as [|[ea v] rest IH]; [done|]. simpl.
  destruct (runs rest) as [|[s bs] rs].
  - simpl. apply sublist_skip, sublist_nil_l.
  - destruct (decide (s = ea + 1)); simpl.
    + apply sublist_skip. etrans; [|exact IH]. simpl. by apply sublist_cons.
    + by apply sublist_skip.
Qed.

Lemma runs_starts_NoDup (facts : list (Z * byte)) :
  strictly_increasing facts.*1 → NoDup (runs facts).*1.
Proof.
  intros Hs. eapply sublist_NoDup; [|apply runs_starts_sublist].
  by apply strictly_increasing_NoDup.
Qed.

Lemma runs_head_gap (facts : list (Z * byte)) s1 bs1 s2 bs2 rs :
  runs facts = (s1, bs1) :: (s2, bs2) :: rs → s2 ≠ s1 + Z.of_nat (length bs1).
Proof.
  revert s1 bs1 s2 bs2 rs.
  induction facts as [|[ea v] rest IH]; intros s1 bs1 s2 bs2 rs; [done|]. simpl.
  destruct (runs rest) as [|[s bs] rs'] eqn:E; [done|].
  destruct (decide (s = ea + 1)) as [->|Hne]; intros Heq; simplify_eq.
  - specialize (IH _ _ _ _ _ eq_refl). simpl length. lia.
  - simpl length. lia.
Qed.

Lemma elem_of_facts_of_run (s : Z) (bs : bytes) (i : nat) (x : byte) :
  bs !! i = Some x → (s + Z.of_nat i, x) ∈ facts_of_run s bs.
Proof.
  revert s i. induction bs as [|v bs IH]; intros s i; [done|].
  destruct i as [|i]; simpl.
  - intros [= ->]. rewrite Z.add_0_r. left.
  - intros Hi. right. replace (s + Z.of_nat (S i)) with (s + 1 + Z.of_nat i) by lia.
    by apply IH.
Qed.

Lemma runs_head_prefix (facts : list (Z * byte)) s bs rs :
  runs facts = (s, bs) :: rs →
  ∃ rest, facts = facts_of_run s bs ++ rest ∧ runs rest = rs.
Proof.
  revert s bs rs. induction facts as [|[ea v] rest IH]; intros s bs rs; [done|].
  simpl. destruct (runs rest) as [|[s' bs'] rs'] eqn:E.
  - intros Heq; simplify_eq. by exists rest.
  - destruct (decide (s' = ea + 1)) as [->|Hne]; intros Heq; simplify_eq.
    + destruct (IH _ _ _ eq_refl) as (rest' & -> & Hr).
      by exists rest'.
    + by exists rest.
Qed.

Lemma runs_head_separated (facts : list (Z * byte)) s1 bs1 s2 bs2 rs :
  strictly_increasing facts.*1 →
  runs facts = (s1, bs1) :: (s2, bs2) :: rs → s1 + Z.of_nat (length bs1) < s2.
Proof.
  intros Hs Hr. pose proof (runs_head_gap _ _ _ _ _ _ Hr) as Hgap.
  destruct (runs_head_prefix _ _ _ _ Hr) as (rest & -> & Hrest).
  destruct (runs_head_prefix _ _ _ _ Hrest) as (rest' & -> & _).
  assert (bs1 ≠ []) as Hne1.
  { eapply (runs_nonempty _ (s1, bs1)). rewrite Hr. left. }
  assert (bs2 ≠ []) as Hne2.
  { eapply (runs_nonempty _ (s2, bs2)). rewrite Hrest. left. }
  rewrite fmap_app in Hs. apply StronglySorted_app in Hs as (Hlt & _ & _).
  destruct (decide (bs1 = [])) as [|Hl]; [done|].
  apply exists_last in Hl as (b1 & x1 & ->).
  destruct bs2 as [|x2 bs2]; [done|].
  specialize (Hlt (s1 + Z.of_nat (length b1)) s2).
  rewrite length_app in Hgap |- *. simpl length in *.
  cut (s1 + Z.of_nat (length b1) < s2); [lia|]. apply Hlt.
  - apply list_elem_of_fmap. exists (s1 + Z.of_nat (length b1), x1). split; [done|].
    apply elem_of_facts_of_run. by rewrite list_lookup_middle.
  - simpl. left.
Qed.

Lemma runs_suffix (facts : list (Z * byte)) (pre R : list (Z * bytes)) :
  runs facts = pre ++ R → ∃ f1 f2, facts = f1 ++ f2 ∧ runs f2 = R.
Proof.
  revert facts. induction pre as [|[s bs] pre IH]; intros facts H.
  - by exists [], facts.
  - simpl in H. apply runs_head_prefix in H as (rest & -> & Hrest).
    destruct (IH _ Hrest) as (f1 & f2 & -> & HR).
    exists (facts_of_run s bs ++ f1), f2. by rewrite app_assoc.
Qed.

Lemma runs_separated (facts : list (Z * byte)) pre s1 bs1 s2 bs2 post :
  strictly_increasing facts.*1 →
  runs facts = pre ++ (s1, bs1) :: (s2, bs2) :: post →
  s1 + Z.of_nat (length bs1) < s2.
Proof.
  intros Hs Hr. apply runs_suffix in Hr as (f1 & f2 & -> & Hr).
  rewrite fmap_app in Hs. apply StronglySorted_app in Hs as (_ & _ & Hs).
  by eapply runs_head_separated.
Qed.

Lemma runs_nil_inv (facts : list (Z * byte)) : runs facts = [] → facts = [].
Proof.
  destruct facts as [|[ea v] rest]; [done|].
  by destruct (runs_cons_head ea v rest) as (? & ? & ->).
Qed.

Lemma runs_app_split (pre : list (Z * byte)) l x p y post :
  p ≠ l + 1 →
  runs (pre ++ (l, x) :: (p, y) :: post)
  = runs (pre ++ [(l, x)]) ++ runs ((p, y) :: post).
Proof.
  intros Hgap. induction pre as [|[e v] pre IH].
  - change (runs ([] ++ (l, x) :: (p, y) :: post)) with
      (match runs ((p, y) :: post) with
       | (s, bs) :: rs =>
           if decide (s = l + 1) then (l, x :: bs) :: rs
           else (l, [x]) :: (s, bs) :: rs
       | [] => [(l, [x])]
       end).
    destruct (runs_cons_head p y post) as (bs & rs & ->).
    by rewrite decide_False.
  - change (runs (((e, v) :: pre) ++ (l, x) :: (p, y) :: post)) with
      (match runs (pre ++ (l, x) :: (p, y) :: post) with
       | (s, bs) :: rs =>
           if decide (s = e + 1) then (e, v :: bs) :: rs
           else (e, [v]) :: (s, bs) :: rs
       | [] => [(e, [v])]
       end).
    change (runs (((e, v) :: pre) ++ [(l, x)])) with
      (match runs (pre ++ [(l, x)]) with
       | (s, bs) :: rs =>
           if decide (s = e + 1) then (e, v :: bs) :: rs
           else (e, [v]) :: (s, bs) :: rs
       | [] => [(e, [v])]
       end).
    rewrite IH.
    destruct (runs (pre ++ [(l, x)])) as [|[s bs] rs] eqn:E.
    + apply runs_nil_inv in E. by destruct pre.
    + simpl. by destruct (decide (s = e + 1)).
Qed.

Lemma runs_covered (facts : list (Z * byte)) (r : Z * bytes) :
  r ∈ runs facts → facts_of_run r.1 r.2 ⊆ facts.
Proof.
  intros Hr f Hf. rewrite <- (runs_flatten facts).
  apply list_elem_of_In, in_concat. exists (facts_of_run r.1 r.2).
  split; apply list_elem_of_In; [|done].
  apply list_elem_of_fmap. by exists r.
Qed.

Lemma runs_last_address (facts : list (Z * byte)) (r : Z * bytes) :
  r ∈ runs facts → r.1 + Z.of_nat (length r.2) - 1 ∈ facts.*1.
Proof.
  intros Hr. pose proof (runs_nonempty _ _ Hr) as Hne.
  destruct r as [s bs]. simpl in *.
  apply exists_last in Hne as (b1 & x1 & ->).
  apply list_elem_of_fmap. exists (s + Z.of_nat (length b1), x1). split.
  - rewrite length_app. simpl. lia.
  - apply (runs_covered _ (s, b1 ++ [x1]) Hr). simpl.
    apply elem_of_facts_of_run. by apply list_lookup_middle.
Qed.

(** ** The loop of the coalescer *)

(** The key of the update is never [None]: [patch_start] is assigned as long
    as [last_pos] is [None], and every later state has it assigned. *)
Lemma coalesce_start_assigned (st : coalescer) (pos : Z) :
  last_pos st = None ∨ is_Some (patch_start st) →
  is_Some (next_patch_start st pos).
Proof.
  unfold next_patch_start, starts_run. intros [->|Hs]; [eauto|].
  destruct (last_pos st); [case_bool_decide|]; eauto.
Qed.

Lemma coalesce_step_first (saf : bool) (pos : Z) (patch : bytes)
    (items : list (Z * bytes)) (cp : gmap Z bytes) (ps : option Z) :
  coalesce saf ((pos, patch) :: items) (mkCoalescer cp ps None)
  = coalesce saf items
      (mkCoalescer (defaultdict_iadd pos patch cp) (Some pos) (Some pos)).
Proof. done. Qed.

Lemma coalesce_step_contiguous (saf : bool) (pos : Z) (patch : bytes)
    (items : list (Z * bytes)) (cp : gmap Z bytes) (ps lp : Z) :
  pos = lp + 1 →
  coalesce saf ((pos, patch) :: items) (mkCoalescer cp (Some ps) (Some lp))
  = coalesce saf items
      (mkCoalescer (defaultdict_iadd ps patch cp) (Some ps) (Some pos)).
Proof.
  intros ->. simpl. unfold next_patch_start, starts_run. simpl.
  by rewrite bool_decide_false by (intros H; by apply H).
Qed.

Lemma coalesce_step_gap (pos : Z) (patch : bytes)
    (items : list (Z * bytes)) (cp : gmap Z bytes) (ps lp : Z) :
  pos ≠ lp + 1 →
  coalesce false ((pos, patch) :: items) (mkCoalescer cp (Some ps) (Some lp))
  = coalesce false items
      (mkCoalescer (defaultdict_iadd pos patch cp) (Some pos) (Some pos)).
Proof.
  intros Hne. simpl. unfold next_patch_start, starts_run. simpl.
  by rewrite bool_decide_true.
Qed.

Lemma coalesce_step_break (pos : Z) (patch : bytes)
    (items : list (Z * bytes)) (cp : gmap Z bytes) (ps lp : Z) :
  pos ≠ lp + 1 →
  coalesce true ((pos, patch) :: items) (mkCoalescer cp (Some ps) (Some lp))
  = mkCoalescer (defaultdict_iadd pos patch cp) (Some pos) (Some lp).
Proof.
  intros Hne. simpl. unfold next_patch_start, starts_run. simpl.
  by rewrite bool_decide_true.
Qed.

Lemma defaultdict_iadd_fresh (k : Z) (patch : bytes) (m : gmap Z bytes) :
  m !! k = None → defaultdict_iadd k patch m = <[k := patch]> m.
Proof. intros H. unfold defaultdict_iadd. by rewrite H. Qed.

Lemma defaultdict_iadd_present (k : Z) (cur patch : bytes) (m : gmap Z bytes) :
  m !! k = Some cur → defaultdict_iadd k patch m = <[k := cur ++ patch]> m.
Proof. intros H. unfold defaultdict_iadd. by rewrite H. Qed.

Lemma open_run_extend cp ps lp cur v :
  open_run cp ps lp cur →
  open_run (<[ps := cur ++ [v]]> cp) ps (lp + 1) (cur ++ [v]).
Proof.
  intros (Hps & Hne & Hlen & Hk). split_and!.
  - by rewrite lookup_insert_eq.
  - by destruct cur.
  - rewrite length_app. simpl length. lia.
  - intros k [y Hy]. destruct (decide (k = ps)) as [->|Hn].
    + assert (0 < Z.of_nat (length cur)); [destruct cur; [done|simpl length; lia]|lia].
    + rewrite lookup_insert_ne in Hy by done.
      specialize (Hk k (ltac:(eauto))). lia.
Qed.

Lemma open_run_new cp ps lp cur ea v :
  open_run cp ps lp cur → lp < ea →
  open_run (<[ea := [v]]> cp) ea ea [v].
Proof.
  intros (Hps & Hne & Hlen & Hk) Hlt. split_and!.
  - by rewrite lookup_insert_eq.
  - done.
  - simpl length. lia.
  - intros k [y Hy]. destruct (decide (k = ea)) as [->|Hn]; [lia|].
    rewrite lookup_insert_ne in Hy by done.
    specialize (Hk k (ltac:(eauto))). lia.
Qed.

Lemma open_run_fresh cp ps lp cur ea :
  open_run cp ps lp cur → lp < ea → cp !! ea = None.
Proof.
  intros (_ & _ & _ & Hk) Hlt. destruct (cp !! ea) eqn:E; [|done].
  specialize (Hk ea (ltac:(eauto))). lia.
Qed.

Lemma runs_open_key (ps : Z) (cur : bytes) (facts : list (Z * byte)) :
  cur ≠ [] →
  is_Some ((list_to_map (runs (facts_of_run ps cur ++ facts)) : gmap Z bytes) !! ps).
Proof.
  intros Hne. destruct cur as [|x cur]; [done|].
  destruct (runs_cons_head ps x (facts_of_run (ps + 1) cur ++ facts)) as (bs & rs & Heq).
  change (facts_of_run ps (x :: cur) ++ facts)
    with ((ps, x) :: (facts_of_run (ps + 1) cur ++ facts)).
  rewrite Heq. rewrite list_to_map_cons, lookup_insert_eq. eauto.
Qed.

Lemma coalesce_false_from (facts : list (Z * byte)) cp ps lp cur :
  open_run cp ps lp cur →
  Forall (λ f, lp < f.1) facts → strictly_increasing facts.*1 →
  continuous_patches
    (coalesce false (item_of <$> facts) (mkCoalescer cp (Some ps) (Some lp)))
  = list_to_map (runs (facts_of_run ps cur ++ facts)) ∪ cp.
Proof.
  revert cp ps lp cur.
  induction facts as [|[ea v] rest IH]; intros cp ps lp cur Hinv Hlp Hsorted.
  - destruct Hinv as (Hps & Hne & _). simpl. rewrite app_nil_r.
    rewrite runs_facts_of_run by done. simpl.
    rewrite insert_empty, <- insert_union_singleton_l. by rewrite insert_id.
  - rewrite fmap_cons in Hsorted. apply strictly_increasing_cons in Hsorted as [Hea Hrest].
    apply Forall_cons in Hlp as [Hlt Hlp]. simpl in Hlt.
    rewrite Forall_fmap in Hea.
    rewrite fmap_cons. unfold item_of at 1. simpl fst. simpl snd.
    destruct (decide (ea = lp + 1)) as [->|Hgap].
    + rewrite coalesce_step_contiguous by done.
      rewrite (defaultdict_iadd_present _ cur) by apply Hinv.
      rewrite (IH _ _ _ (cur ++ [v])); [| by apply open_run_extend | done | done].
      rewrite facts_of_run_snoc, <- app_assoc.
      destruct Hinv as (_ & Hne & Hlen & _). rewrite Hlen. simpl.
      apply union_insert_absorb.
      replace (lp + 1) with (ps + Z.of_nat (length cur)) by done.
      rewrite (cons_middle _ (facts_of_run ps cur) rest), app_assoc, <- facts_of_run_snoc.
      apply runs_open_key. by destruct cur.
    + rewrite coalesce_step_gap by done.
      rewrite defaultdict_iadd_fresh by (by eapply open_run_fresh).
      rewrite (IH _ _ _ [v]); [| by eapply open_run_new | done | done].
      change (facts_of_run ea [v] ++ rest) with ((ea, v) :: rest).
      destruct Hinv as (Hps & Hne & Hlen & Hk).
      rewrite runs_app_gap by (done || lia).
      rewrite union_insert_absorb
        by (destruct (runs_cons_head ea v rest) as (bs & rs & ->);
            rewrite list_to_map_cons, lookup_insert_eq; eauto).
      rewrite list_to_map_cons, <- insert_union_l. symmetry. apply insert_id.
      rewrite lookup_union_r; [done|].
      apply (runs_lookup_below _ lp).
      * constructor; [done|]. eapply Forall_impl; [exact Hea|]. simpl. lia.
      * assert (0 < Z.of_nat (length cur)); [destruct cur; [done|simpl length; lia]|lia].
Qed.

Lemma first_run_and_gap_key (r : Z * bytes) (rs : list (Z * bytes)) :
  is_Some ((list_to_map (first_run_and_gap (r :: rs)) : gmap Z bytes) !! r.1).
Proof.
  destruct r as [s bs], rs as [|[s2 bs2] rs]; simpl;
    rewrite lookup_insert_eq; eauto.
Qed.

Lemma coalesce_true_from (facts : list (Z * byte)) cp ps lp cur :
  open_run cp ps lp cur →
  Forall (λ f, lp < f.1) facts → strictly_increasing facts.*1 →
  continuous_patches
    (coalesce true (item_of <$> facts) (mkCoalescer cp (Some ps) (Some lp)))
  = list_to_map (first_run_and_gap (runs (facts_of_run ps cur ++ facts))) ∪ cp.
Proof.
  revert cp ps lp cur.
  induction facts as [|[ea v] rest IH]; intros cp ps lp cur Hinv Hlp Hsorted.
  - destruct Hinv as (Hps & Hne & _). simpl. rewrite app_nil_r.
    rewrite runs_facts_of_run by done. simpl.
    rewrite insert_empty, <- insert_union_singleton_l. by rewrite insert_id.
  - rewrite fmap_cons in Hsorted. apply strictly_increasing_cons in Hsorted as [Hea Hrest].
    apply Forall_cons in Hlp as [Hlt Hlp]. simpl in Hlt.
    rewrite Forall_fmap in Hea.
    rewrite fmap_cons. unfold item_of at 1. simpl fst. simpl snd.
    destruct (decide (ea = lp + 1)) as [->|Hgap].
    + rewrite coalesce_step_contiguous by done.
      rewrite (defaultdict_iadd_present _ cur) by apply Hinv.
      rewrite (IH _ _ _ (cur ++ [v])); [| by apply open_run_extend | done | done].
      rewrite facts_of_run_snoc, <- app_assoc.
      destruct Hinv as (_ & Hne & Hlen & _). rewrite Hlen. simpl.
      apply union_insert_absorb.
      destruct cur as [|c cur]; [done|].
      change (facts_of_run ps (c :: cur) ++ (lp + 1, v) :: rest)
        with ((ps, c) :: (facts_of_run (ps + 1) cur ++ (lp + 1, v) :: rest)).
      destruct (runs_cons_head ps c (facts_of_run (ps + 1) cur ++ (lp + 1, v) :: rest))
        as (bs & rs & ->).
      apply (first_run_and_gap_key (ps, c :: bs)).
    + rewrite coalesce_step_break by done.
      rewrite defaultdict_iadd_fresh by (by eapply open_run_fresh).
      destruct Hinv as (Hps & Hne & Hlen & Hk).
      rewrite runs_app_gap by (done || lia).
      destruct (runs_cons_head ea v rest) as (bs & rs & ->).
      simpl.
      rewrite <- !insert_union_l, (left_id_L ∅ (∪)).
      symmetry. apply insert_id. rewrite lookup_insert_ne; [done|].
      assert (0 < Z.of_nat (length cur)); [destruct cur; [done|simpl length; lia]|lia].
Qed.

Lemma open_run_first (ea : Z) (v : byte) :
  open_run (<[ea := [v]]> ∅) ea ea [v].
Proof.
  split_and!.
  - by rewrite lookup_insert_eq.
  - done.
  - simpl length. lia.
  - intros k [y Hy]. destruct (decide (k = ea)) as [->|Hn]; [lia|].
    by rewrite lookup_insert_ne, lookup_empty in Hy.
Qed.

Lemma coalesce_false_runs (facts : list (Z * byte)) :
  strictly_increasing facts.*1 →
  continuous_patches (coalesce false (item_of <$> facts) (mkCoalescer ∅ None None))
  = list_to_map (runs facts).
Proof.
  destruct facts as [|[ea v] rest]; [done|]. intros Hs.
  rewrite fmap_cons in Hs. apply strictly_increasing_cons in Hs as [Hea Hrest].
  rewrite Forall_fmap in Hea.
  rewrite fmap_cons. unfold item_of at 1. simpl fst. simpl snd.
  rewrite coalesce_step_first, defaultdict_iadd_fresh by done.
  rewrite (coalesce_false_from _ _ _ _ [v]); [| apply open_run_first | done | done].
  change (facts_of_run ea [v] ++ rest) with ((ea, v) :: rest).
  rewrite union_insert_absorb, (right_id_L ∅ (∪)); [done|].
  destruct (runs_cons_head ea v rest) as (bs & rs & ->).
  rewrite list_to_map_cons, lookup_insert_eq. eauto.
Qed.

Lemma coalesce_true_runs (facts : list (Z * byte)) :
  strictly_increasing facts.*1 →
  continuous_patches (coalesce true (item_of <$> facts) (mkCoalescer ∅ None None))
  = list_to_map (first_run_and_gap (runs facts)).
Proof.
  destruct facts as [|[ea v] rest]; [done|]. intros Hs.
  rewrite fmap_cons in Hs. apply strictly_increasing_cons in Hs as [Hea Hrest].
  rewrite Forall_fmap in Hea.
  rewrite fmap_cons. unfold item_of at 1. simpl fst. simpl snd.
  rewrite coalesce_step_first, defaultdict_iadd_fresh by done.
  rewrite (coalesce_true_from _ _ _ _ [v]); [| apply open_run_first | done | done].
  change (facts_of_run ea [v] ++ rest) with ((ea, v) :: rest).
  rewrite union_insert_absorb, (right_id_L ∅ (∪)); [done|].
  destruct (runs_cons_head ea v rest) as (bs & rs & ->).
  apply (first_run_and_gap_key (ea, v :: bs)).
Qed.

Lemma normalize_list_to_map (rs : list (Z * bytes)) :
  normalize (list_to_map rs) = list_to_map (patch_of_run <$> rs).
Proof.
  unfold normalize. induction rs as [|[s bs] rs IH]; simpl.
  - apply map_imap_empty.
  - by rewrite (map_imap_insert_Some _ _ _ _ (mkPatch s bs)), IH.
Qed.

Lemma facts_in_increasing (d : ida) (lo hi : Z) :
  strictly_increasing (pb_ea <$> ida_patched d) →
  strictly_increasing (facts_in d lo hi).*1.
Proof.
  intros Hs. unfold facts_in. rewrite <- list_fmap_compose.
  by apply strictly_increasing_filter.
Qed.

Lemma collect_false_runs (d : ida) (lo hi : Z) :
  strictly_increasing (pb_ea <$> ida_patched d) →
  _collect_continuous_patches d (Some lo) (Some hi) false
  = list_to_map (patch_of_run <$> runs (facts_in d lo hi)).
Proof.
  intros Hs. unfold _collect_continuous_patches.
  rewrite visit_patched_bytes_items by done.
  rewrite coalesce_false_runs by (by apply facts_in_increasing).
  apply normalize_list_to_map.
Qed.

Lemma collect_true_runs (d : ida) (lo hi : Z) :
  strictly_increasing (pb_ea <$> ida_patched d) →
  _collect_continuous_patches d (Some lo) (Some hi) true
  = list_to_map (patch_of_run <$> first_run_and_gap (runs (facts_in d lo hi))).
Proof.
  intros Hs. unfold _collect_continuous_patches.
  rewrite visit_patched_bytes_items by done.
  rewrite coalesce_true_runs by (by apply facts_in_increasing).
  apply normalize_list_to_map.
Qed.

Lemma first_run_lookup (F : list (Z * byte)) (a : Z) :
  strictly_increasing F.*1 → Forall (λ f, a - 1 ≤ f.1) F →
  (list_to_map (patch_of_run <$> first_run_and_gap (runs F)) : gmap Z Patch) !! a
  = match runs F with
    | (s, bs) :: _ => if decide (s = a) then Some (mkPatch a bs) else None
    | [] => None
    end.
Proof.
  intros Hs Hlo. destruct (runs F) as [|[s bs] rs] eqn:E; [done|].
  assert (a - 1 ≤ s) as Hs1.
  { assert ((s, bs) ∈ runs F) as Hr by (rewrite E; left).
    apply runs_starts, list_elem_of_fmap in Hr as (f & Heq & Hf). simpl in Heq.
    rewrite Forall_forall in Hlo. rewrite Heq. by apply Hlo. }
  assert (0 < Z.of_nat (length bs)) as Hlen.
  { assert ((s, bs) ∈ runs F) as Hr by (rewrite E; left).
    apply runs_nonempty in Hr. destruct bs; [done|simpl length; lia]. }
  destruct rs as [|[s2 bs2] rs]; simpl.
  - destruct (decide (s = a)) as [->|Hne].
    + by rewrite lookup_insert_eq.
    + by rewrite lookup_insert_ne, lookup_empty.
  - pose proof (runs_head_separated _ _ _ _ _ _ Hs E) as Hsep.
    destruct (decide (s = a)) as [->|Hne].
    + by rewrite lookup_insert_eq.
    + rewrite !lookup_insert_ne, lookup_empty by lia. done.
Qed.

Lemma facts_in_window (d : ida) (lo hi : Z) :
  Forall (λ f, lo ≤ f.1 < hi) (facts_in d lo hi).
Proof.
  unfold facts_in, idaapi.patched_in. rewrite Forall_fmap, Forall_forall.
  intros pb Hpb. apply list_elem_of_filter in Hpb as [Hpb _]. done.
Qed.

Lemma facts_in_patched (d : ida) (lo hi : Z) (f : Z * byte) :
  f ∈ facts_in d lo hi → f ∈ fact_of <$> ida_patched d.
Proof.
  unfold facts_in, idaapi.patched_in. intros (pb & -> & Hpb)%list_elem_of_fmap.
  apply list_elem_of_filter in Hpb as [_ Hpb].
  apply list_elem_of_fmap. by exists pb.
Qed.

Lemma patched_at_facts_in (d : ida) (lo hi ea : Z) :
  patched_at d ea → lo ≤ ea < hi → ea ∈ (facts_in d lo hi).*1.
Proof.
  unfold patched_at, facts_in, idaapi.patched_in.
  intros (pb & -> & Hpb)%list_elem_of_fmap Hr.
  rewrite <- list_fmap_compose. apply list_elem_of_fmap. exists pb. split; [done|].
  by apply list_elem_of_filter.
Qed.

Lemma runs_first_start (facts : list (Z * byte)) s bs rs :
  strictly_increasing facts.*1 → runs facts = (s, bs) :: rs →
  ∀ k, k ∈ facts.*1 → s ≤ k.
Proof.
  intros Hs Hr k Hk. destruct facts as [|[ea v] rest]; [done|].
  destruct (runs_cons_head ea v rest) as (bs' & rs' & Heq).
  rewrite Heq in Hr. simplify_eq.
  rewrite fmap_cons in Hs, Hk. apply strictly_increasing_cons in Hs as [Hlt _].
  apply elem_of_cons in Hk as [->|Hk]; [simpl; lia|].
  rewrite Forall_forall in Hlt. specialize (Hlt _ Hk). simpl in *. lia.
Qed.

(** ** The capability probe: how a session may evolve *)

Lemma probe_step_refl (s : session) : probe_step s s.
Proof. unfold probe_step. destruct (_decompiler_available (ses_self s)); auto. Qed.

Lemma probe_step_trans (s1 s2 s3 : session) :
  probe_step s1 s2 → probe_step s2 s3 → probe_step s1 s3.
Proof.
  unfold probe_step.
  destruct (_decompiler_available (ses_self s1)) as [b|].
  - intros [-> ->]. done.
  - intros [[-> ->]|(b & -> & ->)]; [done|].
    intros [-> ->]. right. by exists b.
Qed.

Create HintDb probe.

Lemma probe_sound_ret {A : Type} (a : A) : probe_sound (mret a).
Proof. intros s. apply probe_step_refl. Qed.

Lemma probe_sound_bind {A B : Type} (m : M A) (f : A → M B) :
  probe_sound m → (∀ a, probe_sound (f a)) → probe_sound (m ≫= f).
Proof.
  intros Hm Hf s. specialize (Hm s). unfold mbind, M_bind.
  destruct (m s) as [[a|e] s']; simpl in *; [|done].
  eapply probe_step_trans; [exact Hm|apply Hf].
Qed.

Lemma probe_sound_gets {A : Type} (f : session → A) : probe_sound (gets f).
Proof. intros s. apply probe_step_refl. Qed.

Lemma probe_sound_backend {A : Type} (f : ida → Result A * ida) : probe_sound (backend f).
Proof.
  intros s. unfold backend. destruct (f (ses_db s)) as [r d]. simpl.
  unfold probe_step. simpl. destruct (_decompiler_available (ses_self s)); auto.
Qed.

Lemma probe_sound_put_db (d : ida) : probe_sound (put_db d).
Proof.
  intros s. unfold probe_step. simpl.
  destruct (_decompiler_available (ses_self s)); auto.
Qed.

Lemma probe_sound_critical (msg : string) : probe_sound (_l.critical msg).
Proof.
  intros s. unfold probe_step. simpl.
  destruct (_decompiler_available (ses_self s)); auto.
Qed.

Lemma probe_sound_set_ctx (ctx : option Function) :
  probe_sound (gets ses_self ≫= λ self, put_self (set_updated_ctx ctx self)).
Proof.
  intros s. unfold probe_step. simpl.
  destruct (_decompiler_available (ses_self s)); auto.
Qed.

Lemma probe_sound_try {A : Type} (m handler : M A) :
  probe_sound m → probe_sound handler → probe_sound (try_except_Exception m handler).
Proof.
  intros Hm Hh s. specialize (Hm s). unfold try_except_Exception.
  destruct (m s) as [[a|e] s']; simpl in *; [done|].
  destruct (isinstance_Exception e); [|done].
  eapply probe_step_trans; [exact Hm|apply Hh].
Qed.

Lemma probe_sound_hexrays_decompile (ea : Z) : probe_sound (ida_hexrays.decompile ea).
Proof. intros s. apply probe_step_refl. Qed.

Lemma probe_sound_decompiler_available : probe_sound decompiler_available.
Proof.
  intros s. unfold decompiler_available, probe_step, mbind, M_bind, gets. simpl.
  destruct (_decompiler_available (ses_self s)) as [b|] eqn:E; simpl.
  - by rewrite E.
  - right. eauto.
Qed.

#[local] Hint Resolve probe_sound_ret probe_sound_gets probe_sound_backend
  probe_sound_put_db probe_sound_critical probe_sound_set_ctx
  probe_sound_hexrays_decompile probe_sound_decompiler_available : probe.

Ltac probe_sound_tac :=
  repeat first
    [ progress auto with probe
    | apply probe_sound_try
    | apply probe_sound_bind; [|intros ?]
    | match goal with
      | |- probe_sound (if ?b then _ else _) => destruct b
      | |- probe_sound (match ?x with _ => _ end) => destruct x
      end ].

Lemma exec_probe_step (compat : compat_module) (c : call) (s : session) :
  probe_step s (exec compat c s).
Proof.
  destruct c; unfold exec, after;
    match goal with |- probe_step _ (?m _).2 => cut (probe_sound m); [by intros H|] end;
    unfold binary_hash, active_context, update_active_context, binary_path,
      get_func_size, goto_address, _decompile, _set_function, _get_function,
      _functions, _set_stack_variable, _set_global_variable, _get_global_var,
      _global_vars, _set_struct, _get_struct, _structs, _set_enum, _get_enum,
      _enums, _set_patch, _set_comment, _get_comment, _comments,
      _set_function_header;
    probe_sound_tac.
Qed.

Lemma exec_all_probe_step (compat : compat_module) (calls : list call) (s : session) :
  probe_step s (exec_all compat calls s).
Proof.
  revert s. induction calls as [|c calls IH]; intros s; simpl.
  - apply probe_step_refl.
  - eapply probe_step_trans; [apply exec_probe_step|apply IH].
Qed.

(** ** Tactics for concrete inputs *)

Ltac solve_increasing :=
  unfold strictly_increasing; simpl;
  repeat first [ apply SSorted_nil | apply SSorted_cons | apply Forall_nil
               | apply Forall_cons; split | lia ].

Ltac solve_elem_of :=
  simpl; repeat first [ apply list_elem_of_here | apply list_elem_of_further ].

(** * The claims *)

(** ** The patch coalescer *)

(** C1, evaluated on the code.  The claim says that with
    [stop_after_first] the result holds the first run only.  On the facts
    at 10, 11, 12, 20, 21, 30, queried from address 9, the loop appends the
    byte at 20 under the new key 20 before it leaves, so the result holds
    two entries: the first run at 10, and a one-byte patch at 20 that is
    not a run of the database. *)
Theorem stop_after_first_keeps_second_run_byte (a b c d e f : byte) :
  _collect_continuous_patches
    (ida_with [(10, a); (11, b); (12, c); (20, d); (21, e); (30, f)])
    (Some 9) None true
  = {[ 10 := mkPatch 10 [a; b; c]; 20 := mkPatch 20 [d] ]}.
Proof. vm_compute. reflexivity. Qed.

(** C3.  When the patched bytes are enumerated in strictly increasing
    address order and [stop_after_first] is off, the result has exactly one
    [Patch] per run of the enumerated facts, keyed by the start of the run
    and holding the bytes of the run in address order: the result is the map
    of [runs], the starts of the runs are pairwise distinct, the result has
    as many entries as there are runs, the runs put end to end are the
    facts, and two consecutive runs are separated by a gap.  In particular
    the facts at 10, 11, 12, 20, 21, 30 with the values [a] to [f] give the
    three patches [10 -> a b c], [20 -> d e] and [30 -> f]. *)
Theorem coalescer_one_patch_per_run :
  (∀ (d : ida) (lo hi : Z),
     strictly_increasing (pb_ea <$> ida_patched d) →
     _collect_continuous_patches d (Some lo) (Some hi) false
     = list_to_map (patch_of_run <$> runs (facts_in d lo hi))
     ∧ NoDup (runs (facts_in d lo hi)).*1
     ∧ size (_collect_continuous_patches d (Some lo) (Some hi) false)
       = length (runs (facts_in d lo hi))
     ∧ concat ((λ r, facts_of_run r.1 r.2) <$> runs (facts_in d lo hi))
       = facts_in d lo hi
     ∧ (∀ pre s1 bs1 s2 bs2 post,
          runs (facts_in d lo hi) = pre ++ (s1, bs1) :: (s2, bs2) :: post →
          s1 + Z.of_nat (length bs1) < s2))
  ∧ (∀ a b c d e f : byte,
       _collect_continuous_patches
         (ida_with [(10, a); (11, b); (12, c); (20, d); (21, e); (30, f)])
         None None false
       = {[ 10 := mkPatch 10 [a; b; c];
            20 := mkPatch 20 [d; e];
            30 := mkPatch 30 [f] ]}).
Proof.
  split.
  - intros d lo hi Hs.
    pose proof (facts_in_increasing d lo hi Hs) as Hinc.
    pose proof (runs_starts_NoDup _ Hinc) as Hnd.
    rewrite collect_false_runs by done.
    split_and!; [done|done| |apply runs_flatten|].
    + rewrite map_size_list_to_map, length_fmap; [done|].
      rewrite <- list_fmap_compose.
      by rewrite (list_fmap_ext (fst ∘ patch_of_run) fst _ (λ _ _ _, eq_refl)).
    + intros pre s1 bs1 s2 bs2 post Hr. by eapply runs_separated.
  - intros a b c d e f. vm_compute. reflexivity.
Qed.

Lemma coalescer_one_patch_per_run_witness :
  strictly_increasing (pb_ea <$> ida_patched spec_example)
  ∧ _collect_continuous_patches spec_example (Some 0) (Some 64) false
    = list_to_map (patch_of_run <$> runs (facts_in spec_example 0 64))
  ∧ size (_collect_continuous_patches spec_example (Some 0) (Some 64) false) = 3%nat.
Proof.
  assert (strictly_increasing (pb_ea <$> ida_patched spec_example)) as Hs
    by solve_increasing.
  destruct (proj1 coalescer_one_patch_per_run spec_example 0 64 Hs)
    as (Heq & _ & Hsize & _).
  split_and!; [exact Hs|exact Heq|].
  rewrite Hsize. reflexivity.
Defined.

(** C4.  The boundary test is strict [+1] contiguity.  When two consecutive
    enumerated facts sit at [l] and [p] with [p <> l + 1], then, whatever
    their bytes [x] and [y], the result has a patch keyed at [p] whose
    bytes begin with [y], and no patch that starts at or before [l] reaches
    beyond [l].  With [stop_after_first] the loop ends at the first gap, and
    there too the byte [y] is put under the new key [p].  In particular the
    facts at 10 and 12 give the two one-byte patches at 10 and at 12, in
    both modes of [stop_after_first]. *)
Theorem coalescer_gap_starts_new_run :
  (∀ (d : ida) (lo hi : Z) pre l x p y post,
     strictly_increasing (pb_ea <$> ida_patched d) →
     facts_in d lo hi = pre ++ (l, x) :: (p, y) :: post →
     p ≠ l + 1 →
     (∃ bs, _collect_continuous_patches d (Some lo) (Some hi) false !! p
            = Some (mkPatch p (y :: bs)))
     ∧ (∀ k q, _collect_continuous_patches d (Some lo) (Some hi) false !! k = Some q →
               k ≤ l → k + Z.of_nat (length (Patch_bytes q)) ≤ l + 1))
  ∧ (∀ (d : ida) (lo hi : Z) pre l x p y post s bs,
       strictly_increasing (pb_ea <$> ida_patched d) →
       facts_in d lo hi = pre ++ (l, x) :: (p, y) :: post →
       p ≠ l + 1 →
       runs (pre ++ [(l, x)]) = [(s, bs)] →
       _collect_continuous_patches d (Some lo) (Some hi) true !! p
       = Some (mkPatch p [y]))
  ∧ (∀ (stop_after_first : bool) (x y : byte),
       _collect_continuous_patches (ida_with [(10, x); (12, y)]) None None stop_after_first
       = {[ 10 := mkPatch 10 [x]; 12 := mkPatch 12 [y] ]}).
Proof.
  split_and!.
  - intros d lo hi pre l x p y post Hs Hfacts Hgap.
    pose proof (facts_in_increasing d lo hi Hs) as Hinc.
    pose proof (runs_starts_NoDup _ Hinc) as Hnd.
    rewrite collect_false_runs by done.
    rewrite Hfacts in Hinc, Hnd |- *.
    rewrite runs_app_split in Hnd |- * by done.
    rewrite (cons_middle (l, x) pre), app_assoc, fmap_app in Hinc.
    apply StronglySorted_app in Hinc as (Hlt & Hleft & Hright).
    assert (∀ k, k ∈ (pre ++ [(l, x)]).*1 → k ≤ l) as Hle.
    { intros k Hk. rewrite fmap_app in Hk. apply elem_of_app in Hk as [Hk|Hk].
      - rewrite fmap_app in Hleft. apply StronglySorted_app in Hleft as (Hpl & _ & _).
        specialize (Hpl k l Hk). simpl in Hpl. cut (k < l); [lia|]. apply Hpl. left.
      - simpl in Hk. apply list_elem_of_singleton in Hk. lia. }
    assert (∀ k, k ∈ ((p, y) :: post).*1 → l < k) as Hgt.
    { intros k Hk. apply Hlt; [|done]. rewrite fmap_app. apply elem_of_app. right. left. }
    split.
    + destruct (runs_cons_head p y post) as (bs & rs & Hrun). exists bs.
      rewrite fmap_app, list_to_map_app, lookup_union_r.
      * rewrite Hrun. simpl. by rewrite lookup_insert_eq.
      * apply not_elem_of_list_to_map_1. intros Hin.
        rewrite <- list_fmap_compose in Hin.
        apply list_elem_of_fmap in Hin as (r & Hp & Hr). simpl in Hp.
        apply runs_starts, Hle in Hr. specialize (Hgt p (ltac:(left))). lia.
    + intros k q Hq Hk.
      apply elem_of_list_to_map in Hq.
      2:{ rewrite <- list_fmap_compose.
          by rewrite (list_fmap_ext (fst ∘ patch_of_run) fst _ (λ _ _ _, eq_refl)). }
      apply list_elem_of_fmap in Hq as (r & Heq & Hr). injection Heq as -> ->. simpl.
      apply elem_of_app in Hr as [Hr|Hr].
      * apply runs_last_address, Hle in Hr. lia.
      * apply runs_starts, Hgt in Hr. lia.
  - intros d lo hi pre l x p y post s bs Hs Hfacts Hgap Hfirst.
    pose proof (facts_in_increasing d lo hi Hs) as Hinc.
    rewrite collect_true_runs by done.
    rewrite Hfacts in Hinc |- *. rewrite runs_app_split, Hfirst by done.
    destruct (runs_cons_head p y post) as (bs' & rs & ->). simpl.
    assert (s ≠ p) as Hne.
    { assert ((s, bs) ∈ runs (pre ++ [(l, x)])) as Hin by (rewrite Hfirst; left).
      apply runs_starts in Hin. simpl in Hin.
      rewrite (cons_middle (l, x) pre), app_assoc, fmap_app in Hinc.
      apply StronglySorted_app in Hinc as (Hlt & _ & _).
      specialize (Hlt s p Hin (ltac:(left))). lia. }
    by rewrite lookup_insert_ne, lookup_insert_eq.
  - intros [] x y; vm_compute; reflexivity.
Qed.

Lemma coalescer_gap_starts_new_run_witness :
  strictly_increasing (pb_ea <$> ida_patched spec_example)
  ∧ facts_in spec_example 0 64
    = [(10, x61); (11, x62)] ++ (12, x63) :: (20, x64) :: [(21, x65); (30, x66)]
  ∧ 20 ≠ 12 + 1
  ∧ ∃ bs, _collect_continuous_patches spec_example (Some 0) (Some 64) false !! 20
          = Some (mkPatch 20 (x64 :: bs)).
Proof.
  assert (strictly_increasing (pb_ea <$> ida_patched spec_example)) as Hs
    by solve_increasing.
  assert (20 ≠ 12 + 1) as Hgap by lia.
  split_and!; [exact Hs|reflexivity|exact Hgap|].
  exact (proj1 (proj1 coalescer_gap_starts_new_run spec_example 0 64
                  [(10, x61); (11, x62)] 12 x63 20 x64 [(21, x65); (30, x66)]
                  Hs eq_refl Hgap)).
Defined.

(** C5.  Whatever the bounds of the query (given, or taken from the
    database) and whatever the mode: when no patched byte is enumerated in
    the range, the coalescer returns the empty dict.  The function is total,
    it has no outcome other than a dict. *)
Theorem coalescer_empty_enumeration (d : ida) (min_addr max_addr : option Z)
    (stop_after_first : bool) :
  (∀ lo hi,
     (min_addr = Some lo ∨ min_addr = None ∧ idaapi.inf_get_min_ea d = Some lo) →
     (max_addr = Some hi ∨ max_addr = None ∧ idaapi.inf_get_max_ea d = Some hi) →
     idaapi.patched_in d lo hi = []) →
  _collect_continuous_patches d min_addr max_addr stop_after_first = ∅.
Proof.
  intros Hempty. unfold _collect_continuous_patches.
  destruct min_addr as [lo|], max_addr as [hi|];
    repeat match goal with
           | |- context [idaapi.inf_get_min_ea d] =>
               destruct (idaapi.inf_get_min_ea d) as [?|] eqn:?
           | |- context [idaapi.inf_get_max_ea d] =>
               destruct (idaapi.inf_get_max_ea d) as [?|] eqn:?
           end; try done;
    unfold idaapi.visit_patched_bytes; rewrite Hempty by eauto; done.
Qed.

Lemma coalescer_empty_enumeration_witness :
  idaapi.patched_in spec_example 40 50 = []
  ∧ _collect_continuous_patches spec_example (Some 40) (Some 50) true = ∅.
Proof.
  split; [reflexivity|].
  apply coalescer_empty_enumeration.
  intros lo hi [[= <-]|[[=] _]] [[= <-]|[[=] _]]. reflexivity.
Defined.

(** C8.  On an adapter with [_max_patch_size = 0xff] and a database whose
    patched bytes are enumerated in strictly increasing address order,
    [_get_patch a] returns a patch only when a run starts exactly at [a]:
    the patch is keyed at [a], the byte at [a] is patched and the byte at
    [a - 1] is not, its bytes end before [a + 255], and each of them is the
    patched value at its address.  When the bytes at [a - 1] and at [a] are
    both patched, the run started earlier and the result is [None].  When
    [a] is patched and [a - 1] is not, a patch is returned. *)
Theorem get_patch_run_start (self : IDAInterface) (d : ida) (a : Z) :
  _max_patch_size self = 0xff →
  strictly_increasing (pb_ea <$> ida_patched d) →
  (∀ p, _get_patch self d a = Some p →
        Patch_addr p = a ∧ patched_at d a ∧ ¬ patched_at d (a - 1)
        ∧ a + Z.of_nat (length (Patch_bytes p)) ≤ a + 255
        ∧ ∀ (i : nat) (x : byte),
            Patch_bytes p !! i = Some x →
            (a + Z.of_nat i, x) ∈ fact_of <$> ida_patched d)
  ∧ (patched_at d a → patched_at d (a - 1) → _get_patch self d a = None)
  ∧ (patched_at d a → ¬ patched_at d (a - 1) → is_Some (_get_patch self d a)).
Proof.
  intros Hmax Hs. unfold _get_patch. rewrite Hmax.
  rewrite collect_true_runs by done.
  pose proof (facts_in_increasing d (a - 1) (a + 255) Hs) as Hinc.
  pose proof (facts_in_window d (a - 1) (a + 255)) as Hwin.
  rewrite first_run_lookup;
    [|done|eapply Forall_impl; [exact Hwin|]; simpl; intros; lia].
  destruct (runs (facts_in d (a - 1) (a + 255))) as [|[s bs] rs] eqn:E.
  - split_and!; [done|done|].
    intros Ha _. apply (patched_at_facts_in d (a - 1) (a + 255)) in Ha; [|lia].
    apply runs_nil_inv in E. rewrite E in Ha. by apply elem_of_nil in Ha.
  - assert ((s, bs) ∈ runs (facts_in d (a - 1) (a + 255))) as Hr by (rewrite E; left).
    pose proof (runs_first_start _ _ _ _ Hinc E) as Hmin.
    split_and!.
    + intros p Hp. destruct (decide (s = a)) as [->|Hne]; [|done].
      injection Hp as <-. simpl. split_and!.
      * done.
      * apply runs_starts, list_elem_of_fmap in Hr as (f & Hf1 & Hf).
        apply facts_in_patched in Hf. unfold patched_at.
        apply list_elem_of_fmap in Hf as (pb & -> & Hpb).
        apply list_elem_of_fmap. by exists pb.
      * intros Hprev.
        apply (patched_at_facts_in d (a - 1) (a + 255)) in Hprev; [|lia].
        apply Hmin in Hprev. lia.
      * apply runs_last_address, list_elem_of_fmap in Hr as (f & Hf1 & Hf).
        rewrite Forall_forall in Hwin. specialize (Hwin _ Hf). simpl in *. lia.
      * intros i x Hi. apply (facts_in_patched d (a - 1) (a + 255)).
        apply (runs_covered _ _ Hr). simpl. by apply elem_of_facts_of_run.
    + intros Ha Hprev.
      apply (patched_at_facts_in d (a - 1) (a + 255)) in Hprev; [|lia].
      apply Hmin in Hprev.
      apply runs_starts, list_elem_of_fmap in Hr as (f & Hf1 & Hf).
      rewrite Forall_forall in Hwin. specialize (Hwin _ Hf). simpl in *.
      destruct (decide (s = a)); [lia|done].
    + intros Ha Hprev.
      apply (patched_at_facts_in d (a - 1) (a + 255)) in Ha; [|lia].
      apply Hmin in Ha.
      apply runs_starts in Hr. simpl in Hr.
      destruct (decide (s = a)); [eauto|]. exfalso. apply Hprev.
      assert (s = a - 1) as ->.
      { apply list_elem_of_fmap in Hr as (f & Hf1 & Hf).
        rewrite Forall_forall in Hwin. specialize (Hwin _ Hf). simpl in *. lia. }
      apply list_elem_of_fmap in Hr as (f & Hf1 & Hf).
      apply facts_in_patched, list_elem_of_fmap in Hf as (pb & -> & Hpb).
      unfold patched_at. apply list_elem_of_fmap. by exists pb.
Qed.

Lemma get_patch_run_start_witness :
  _max_patch_size (__init__ false) = 0xff
  ∧ strictly_increasing (pb_ea <$> ida_patched spec_example)
  ∧ _get_patch (__init__ false) spec_example 11 = None
  ∧ _get_patch (__init__ false) spec_example 10 = Some (mkPatch 10 [x61; x62; x63]).
Proof.
  assert (strictly_increasing (pb_ea <$> ida_patched spec_example)) as Hs
    by solve_increasing.
  split_and!; [reflexivity|exact Hs| |reflexivity].
  apply (get_patch_run_start (__init__ false) spec_example 11 eq_refl Hs);
    unfold patched_at; solve_elem_of.
Defined.

(** ** Setters *)

(** C2, as the code has it.  [_set_patch] writes the bytes of the patch at
    its address and returns [True] on every call; the result does not depend
    on whether the write changed the database. *)
Theorem set_patch_always_true (patch : Patch) (s : session) :
  _set_patch patch s
  = (Return true,
     mkSession (ses_self s)
               (idaapi.patch_bytes (Patch_addr patch) (Patch_bytes patch) (ses_db s))
               (ses_log s) (ses_hexrays_inits s)).
Proof. done. Qed.

(** C2 fails on [_set_patch].  The byte at 10 is already patched to [0x41]
    and [_get_patch 10] returns [Patch(10, [0x41])]; writing that same patch
    leaves the whole session as it was, and the call returns [True]. *)
Lemma set_patch_idempotent_write_returns_true :
  _get_patch (__init__ false) patched_example 10 = Some (mkPatch 10 [x41])
  ∧ _set_patch (mkPatch 10 [x41]) (new_session false patched_example)
    = (Return true, new_session false patched_example).
Proof. split; vm_compute; reflexivity. Qed.

(** C6.  On a crashing version of IDA, [_set_struct] on a struct named
    [gcc_va_list] returns [False] without raising, whatever the flags and
    whatever the backend helpers would do: the adapter and the database are
    as before, and the log has one more record, of level [CRITICAL]. *)
Theorem set_struct_refuses_gcc_va_list (compat : compat_module) (struct : Struct)
    (header members : bool) (s : session) :
  _crashing_version (ses_self s) = true →
  Struct_name struct = "gcc_va_list" →
  _set_struct compat struct header members s
  = (Return false,
     mkSession (ses_self s) (ses_db s)
       (ses_log s ++
        [mkLogRecord CRITICAL
           "Syncing the struct gcc_va_list in IDA Pro 8.2 <= will cause a crash. Skipping..."])
       (ses_hexrays_inits s)).
Proof.
  intros Hv Hn. unfold _set_struct, mbind, M_bind, gets. simpl.
  rewrite Hv, Hn. done.
Qed.

Lemma set_struct_refuses_gcc_va_list_witness :
  _crashing_version (ses_self crashing_session) = true
  ∧ _set_struct compat_example (mkStruct "gcc_va_list" 24 []) true true crashing_session
    = (Return false,
       mkSession (ses_self crashing_session) (ses_db crashing_session)
         [mkLogRecord CRITICAL
            "Syncing the struct gcc_va_list in IDA Pro 8.2 <= will cause a crash. Skipping..."]
         0)
  ∧ (_set_struct compat_example (mkStruct "va_list" 24 []) true true crashing_session).1
    = Return true.
Proof.
  split_and!; [reflexivity| |reflexivity].
  apply (set_struct_refuses_gcc_va_list compat_example (mkStruct "gcc_va_list" 24 [])
           true true crashing_session); reflexivity.
Defined.

(** ** Decompilation *)

(** C7.  When [ida_hexrays.decompile] raises an exception that derives from
    [Exception], [_decompile] returns [None] and raises nothing; when it
    returns a [cfunc], [_decompile] returns its text.  The session is
    unchanged in both cases. *)
Theorem decompile_catches_backend_fault (function : Function) (s : session) :
  (∀ e, ida_hexrays_decompile (ses_db s) (Function_addr function) = Raise e →
        isinstance_Exception e = true →
        _decompile function s = (Return None, s))
  ∧ (∀ cfunc, ida_hexrays_decompile (ses_db s) (Function_addr function) = Return cfunc →
              _decompile function s = (Return (Some (cfunc_pseudocode cfunc)), s)).
Proof.
  split.
  - intros e He Hi. unfold _decompile, try_except_Exception, mbind, M_bind,
      ida_hexrays.decompile. rewrite He, Hi. done.
  - intros cfunc Hc. unfold _decompile, try_except_Exception, mbind, M_bind,
      ida_hexrays.decompile. rewrite Hc. done.
Qed.

Lemma decompile_catches_backend_fault_witness :
  ida_hexrays_decompile decompiling_example 0x401234
  = Raise (DecompilationFailure "no function")
  ∧ isinstance_Exception (DecompilationFailure "no function") = true
  ∧ _decompile (mkFunction 0x401234 0 None) (new_session false decompiling_example)
    = (Return None, new_session false decompiling_example)
  ∧ _decompile (mkFunction 0x401000 0 None) (new_session false decompiling_example)
    = (Return (Some "int main() { return 0; }"), new_session false decompiling_example).
Proof.
  split_and!; [reflexivity|reflexivity| |].
  - apply (proj1 (decompile_catches_backend_fault (mkFunction 0x401234 0 None)
                    (new_session false decompiling_example))
             (DecompilationFailure "no function")); reflexivity.
  - apply (proj2 (decompile_catches_backend_fault (mkFunction 0x401000 0 None)
                    (new_session false decompiling_example))
             (mkCfunc "int main() { return 0; }")); reflexivity.
Defined.

(** An exception that does not derive from [Exception] is not caught. *)
Lemma decompile_propagates_other_exceptions (function : Function) (s : session) (e : exn) :
  ida_hexrays_decompile (ses_db s) (Function_addr function) = Raise e →
  isinstance_Exception e = false →
  _decompile function s = (Raise e, s).
Proof.
  intros He Hi. unfold _decompile, try_except_Exception, mbind, M_bind,
    ida_hexrays.decompile. rewrite He, Hi. done.
Qed.

(** ** The capability probe *)

(** C9.  A read of [decompiler_available] with a cached value returns that
    value and leaves the session as it is, so it probes nothing; every read
    leaves a value in the cache; once a value is cached, no sequence of
    method calls changes it or probes again, and a read after the sequence
    still returns it; and from a fresh adapter, no sequence of method calls
    probes more than once. *)
Theorem decompiler_available_probed_once :
  (∀ (s : session) (b : bool),
     _decompiler_available (ses_self s) = Some b →
     decompiler_available s = (Return b, s))
  ∧ (∀ s : session, ∃ (b : bool) (s' : session),
       decompiler_available s = (Return b, s')
       ∧ _decompiler_available (ses_self s') = Some b)
  ∧ (∀ (compat : compat_module) (calls : list call) (s : session) (b : bool),
       _decompiler_available (ses_self s) = Some b →
       _decompiler_available (ses_self (exec_all compat calls s)) = Some b
       ∧ ses_hexrays_inits (exec_all compat calls s) = ses_hexrays_inits s
       ∧ decompiler_available (exec_all compat calls s)
         = (Return b, exec_all compat calls s))
  ∧ (∀ (compat : compat_module) (calls : list call) (h : bool) (d : ida),
       (ses_hexrays_inits (exec_all compat calls (new_session h d)) ≤ 1)%nat).
Proof.
  assert (∀ (s : session) (b : bool),
            _decompiler_available (ses_self s) = Some b →
            decompiler_available s = (Return b, s)) as Hcached.
  { intros s b Hb. unfold decompiler_available, mbind, M_bind, gets. simpl.
    by rewrite Hb. }
  split_and!.
  - exact Hcached.
  - intros s. destruct (_decompiler_available (ses_self s)) as [b|] eqn:E.
    + exists b, s. split; [by apply Hcached|done].
    + unfold decompiler_available, mbind, M_bind, gets. simpl. rewrite E. simpl.
      eexists _, _. split; [reflexivity|done].
  - intros compat calls s b Hb.
    pose proof (exec_all_probe_step compat calls s) as Hstep.
    unfold probe_step in Hstep. rewrite Hb in Hstep. destruct Hstep as [Hc Hi].
    split_and!; [done|done|by apply Hcached].
  - intros compat calls h d.
    pose proof (exec_all_probe_step compat calls (new_session h d)) as Hstep.
    unfold probe_step in Hstep. simpl in Hstep.
    destruct Hstep as [[_ ->]|(b & _ & ->)]; lia.
Qed.

Lemma decompiler_available_probed_once_witness :
  _decompiler_available (ses_self probed_session) = Some true
  ∧ decompiler_available (exec_all compat_example example_calls probed_session)
    = (Return true, exec_all compat_example example_calls probed_session)
  ∧ ses_hexrays_inits (exec_all compat_example example_calls probed_session) = 1%nat.
Proof.
  destruct (proj1 (proj2 (proj2 decompiler_available_probed_once))
              compat_example example_calls probed_session true eq_refl)
    as (_ & Hinits & Hread).
  split_and!; [reflexivity|exact Hread|].
  rewrite Hinits. reflexivity.
Defined.

(** * Further properties of the adapter *)

(** ** Runs as maximal contiguous sequences *)

Lemma facts_value_unique (F : list (Z * byte)) (ea : Z) (x y : byte) :
  NoDup F.*1 → (ea, x) ∈ F → (ea, y) ∈ F → x = y.
Proof.
  induction F as [|[e v] F IH]; [by intros _ ?%elem_of_nil|].
  rewrite fmap_cons. intros Hnd Hx Hy. apply NoDup_cons in Hnd as [Hnin Hnd].
  apply elem_of_cons in Hx as [Hx|Hx]; apply elem_of_cons in Hy as [Hy|Hy].
  - congruence.
  - simplify_eq. exfalso. apply Hnin. apply list_elem_of_fmap. by exists (e, y).
  - simplify_eq. exfalso. apply Hnin. apply list_elem_of_fmap. by exists (e, x).
  - by apply IH.
Qed.

Lemma runs_run_covered (F : list (Z * byte)) (s : Z) (bs : bytes) (i : nat) (x : byte) :
  (s, bs) ∈ runs F → bs !! i = Some x → (s + Z.of_nat i, x) ∈ F.
Proof.
  intros Hr Hi. apply (runs_covered _ _ Hr). simpl. by apply elem_of_facts_of_run.
Qed.

Lemma facts_of_run_elem (s : Z) (bs : bytes) (ea : Z) (v : byte) :
  (ea, v) ∈ facts_of_run s bs → ∃ i : nat, ea = s + Z.of_nat i ∧ bs !! i = Some v.
Proof.
  revert s. induction bs as [|b bs IH]; intros s; simpl.
  - by intros ?%elem_of_nil.
  - intros [Heq|Hin]%elem_of_cons.
    + simplify_eq. exists 0%nat. split; [lia|done].
    + destruct (IH _ Hin) as (i & -> & Hi). exists (S i). split; [lia|done].
Qed.

Lemma runs_cover (F : list (Z * byte)) (ea : Z) (v : byte) :
  (ea, v) ∈ F →
  ∃ s bs (i : nat), (s, bs) ∈ runs F ∧ ea = s + Z.of_nat i ∧ bs !! i = Some v.
Proof.
  intros Hin. rewrite <- (runs_flatten F) in Hin.
  apply list_elem_of_In, in_concat in Hin as (l & Hl & Hv).
  apply list_elem_of_In, list_elem_of_fmap in Hl as ([s bs] & -> & Hr).
  apply list_elem_of_In, facts_of_run_elem in Hv as (i & -> & Hi).
  by exists s, bs, i.
Qed.

Lemma runs_end_free (F : list (Z * byte)) (s : Z) (bs : bytes) :
  strictly_increasing F.*1 → (s, bs) ∈ runs F → s + Z.of_nat (length bs) ∉ F.*1.
Proof.
  revert s bs. induction F as [|[ea v] rest IH]; intros s bs Hs Hr.
  - by apply elem_of_nil in Hr.
  - rewrite fmap_cons in Hs |- *. cbn [fst] in *.
    apply strictly_increasing_cons in Hs as [Hlt Hrest].
    assert (∀ r, r ∈ runs rest → ea < r.1) as Hstart.
    { intros r Hin. apply runs_starts in Hin. rewrite Forall_forall in Hlt. by apply Hlt. }
    simpl in Hr. destruct (runs rest) as [|[s' bs'] rs] eqn:E.
    + apply list_elem_of_singleton in Hr. simplify_eq.
      apply runs_nil_inv in E as ->. cbn [fst length fmap list_fmap]. intros Hin.
      apply list_elem_of_singleton in Hin. lia.
    + pose proof (runs_first_start _ _ _ _ Hrest E) as Hmin.
      destruct (decide (s' = ea + 1)) as [->|Hne].
      * apply elem_of_cons in Hr as [Hr|Hr].
        -- simplify_eq. simpl length. intros [Hin|Hin]%elem_of_cons; [lia|].
           apply (IH (ea + 1) bs' Hrest (ltac:(left))).
           by replace (ea + 1 + Z.of_nat (length bs'))
             with (ea + Z.of_nat (S (length bs'))) by lia.
        -- intros [Hin|Hin]%elem_of_cons.
           ++ specialize (Hstart (s, bs) (ltac:(by right))). simpl in Hstart. lia.
           ++ apply (IH s bs Hrest (ltac:(by right)) Hin).
      * apply elem_of_cons in Hr as [Hr|Hr].
        -- simplify_eq. simpl length. intros [Hin|Hin]%elem_of_cons; [lia|].
           apply Hmin in Hin. specialize (Hstart (s', bs') (ltac:(left))).
           simpl in Hstart. lia.
        -- intros [Hin|Hin]%elem_of_cons.
           ++ specialize (Hstart (s, bs) Hr). simpl in Hstart. lia.
           ++ apply (IH s bs Hrest Hr Hin).
Qed.

Lemma runs_start_free (F : list (Z * byte)) (s : Z) (bs : bytes) :
  strictly_increasing F.*1 → (s, bs) ∈ runs F → s - 1 ∉ F.*1.
Proof.
  revert s bs. induction F as [|[ea v] rest IH]; intros s bs Hs Hr.
  - by apply elem_of_nil in Hr.
  - rewrite fmap_cons in Hs |- *. cbn [fst] in *.
    apply strictly_increasing_cons in Hs as [Hlt Hrest].
    assert (∀ k, k ∈ rest.*1 → ea < k) as Hgt.
    { intros k Hk. rewrite Forall_forall in Hlt. by apply Hlt. }
    pose proof (runs_starts_NoDup _ Hrest) as Hnd.
    simpl in Hr. destruct (runs rest) as [|[s' bs'] rs] eqn:E.
    + apply list_elem_of_singleton in Hr. simplify_eq.
      apply runs_nil_inv in E as ->. cbn [fst length fmap list_fmap]. intros Hin.
      apply list_elem_of_singleton in Hin. lia.
    + pose proof (runs_first_start _ _ _ _ Hrest E) as Hmin.
      destruct (decide (s' = ea + 1)) as [->|Hne].
      * apply elem_of_cons in Hr as [Hr|Hr].
        -- simplify_eq. intros [Hin|Hin]%elem_of_cons; [lia|].
           apply Hgt in Hin. lia.
        -- intros [Hin|Hin]%elem_of_cons.
           ++ assert (s = ea + 1) as -> by lia.
              rewrite fmap_cons in Hnd. apply NoDup_cons in Hnd as [Hnin _].
              apply Hnin. apply list_elem_of_fmap. by exists (ea + 1, bs).
           ++ apply (IH s bs Hrest (ltac:(by right)) Hin).
      * apply elem_of_cons in Hr as [Hr|Hr].
        -- simplify_eq. intros [Hin|Hin]%elem_of_cons; [lia|].
           apply Hgt in Hin. lia.
        -- intros [Hin|Hin]%elem_of_cons.
           ++ assert (s = ea + 1) as -> by lia.
              assert (ea + 1 ∈ rest.*1) as Hin'.
              { apply (runs_starts rest (ea + 1, bs)). by rewrite E. }
              apply Hmin in Hin'. assert (s' ∈ rest.*1) as Hs'.
              { apply (runs_starts rest (s', bs')). rewrite E. left. }
              apply Hgt in Hs'. lia.
           ++ apply (IH s bs Hrest Hr Hin).
Qed.

Lemma run_bytes_unique (F : list (Z * byte)) (k : Z) (bs1 bs2 : bytes) :
  NoDup F.*1 →
  (∀ (i : nat) x, bs1 !! i = Some x → (k + Z.of_nat i, x) ∈ F) →
  (∀ (i : nat) x, bs2 !! i = Some x → (k + Z.of_nat i, x) ∈ F) →
  k + Z.of_nat (length bs1) ∉ F.*1 →
  k + Z.of_nat (length bs2) ∉ F.*1 →
  bs1 = bs2.
Proof.
  intros Hnd H1 H2 He1 He2.
  assert (length bs1 = length bs2) as Hlen.
  { destruct (Nat.lt_total (length bs1) (length bs2)) as [Hlt|[Heq|Hlt]]; [|done|].
    - destruct (lookup_lt_is_Some_2 bs2 _ Hlt) as [x Hx].
      exfalso. apply He1. apply list_elem_of_fmap. exists (k + Z.of_nat (length bs1), x).
      split; [done|]. by apply H2.
    - destruct (lookup_lt_is_Some_2 bs1 _ Hlt) as [x Hx].
      exfalso. apply He2. apply list_elem_of_fmap. exists (k + Z.of_nat (length bs2), x).
      split; [done|]. by apply H1. }
  apply list_eq. intros i.
  destruct (bs1 !! i) as [x|] eqn:E1, (bs2 !! i) as [y|] eqn:E2.
  - f_equal. eapply facts_value_unique; [done|by apply H1|by apply H2].
  - apply lookup_lt_Some in E1. apply lookup_ge_None in E2. lia.
  - apply lookup_ge_None in E1. apply lookup_lt_Some in E2. lia.
  - done.
Qed.

Lemma runs_is_run (F : list (Z * byte)) (k : Z) (bs : bytes) :
  strictly_increasing F.*1 → ((k, bs) ∈ runs F ↔ is_run F k bs).
Proof.
  intros Hs. split.
  - intros Hr. split_and!.
    + apply (runs_nonempty _ _ Hr).
    + intros i x. by apply runs_run_covered.
    + by eapply runs_start_free.
    + by apply runs_end_free.
  - intros (Hne & Hcov & Hsf & Hef).
    destruct bs as [|b bs]; [done|].
    pose proof (Hcov 0%nat b eq_refl) as H0. rewrite Z.add_0_r in H0.
    destruct (runs_cover _ _ _ H0) as (s & bs' & i & Hr & Hk & Hi).
    destruct i as [|i].
    + rewrite Z.add_0_r in Hk. subst s.
      rewrite (run_bytes_unique F k (b :: bs) bs'); [done| | | |done| ].
      * by apply strictly_increasing_NoDup.
      * done.
      * intros j x. by apply runs_run_covered.
      * by apply runs_end_free.
    + exfalso. apply Hsf. destruct (lookup_lt_is_Some_2 bs' i) as [x Hx].
      { apply lookup_lt_Some in Hi. lia. }
      apply list_elem_of_fmap. exists (s + Z.of_nat i, x). split; [simpl; lia|].
      by eapply runs_run_covered.
Qed.

(** ** The full scan *)

Lemma patch_of_run_keys (rs : list (Z * bytes)) :
  (patch_of_run <$> rs).*1 = rs.*1.
Proof.
  rewrite <- list_fmap_compose.
  by rewrite (list_fmap_ext (fst ∘ patch_of_run) fst _ (λ _ _ _, eq_refl)).
Qed.

Lemma runs_map_lookup (F : list (Z * byte)) (k : Z) (p : Patch) :
  strictly_increasing F.*1 →
  (list_to_map (patch_of_run <$> runs F) : gmap Z Patch) !! k = Some p
  ↔ Patch_addr p = k ∧ (k, Patch_bytes p) ∈ runs F.
Proof.
  intros Hs.
  rewrite <- elem_of_list_to_map
    by (rewrite patch_of_run_keys; by apply runs_starts_NoDup).
  rewrite list_elem_of_fmap. split.
  - intros ([s bs] & Heq & Hr). unfold patch_of_run in Heq. simpl in Heq.
    by simplify_eq.
  - intros [<- Hr]. exists (Patch_addr p, Patch_bytes p). split; [|done].
    by destruct p.
Qed.

Lemma collect_false_is_run (d : ida) (lo hi k : Z) (p : Patch) :
  strictly_increasing (pb_ea <$> ida_patched d) →
  _collect_continuous_patches d (Some lo) (Some hi) false !! k = Some p
  ↔ Patch_addr p = k ∧ is_run (facts_in d lo hi) k (Patch_bytes p).
Proof.
  intros Hs. pose proof (facts_in_increasing d lo hi Hs) as Hinc.
  rewrite collect_false_runs, runs_map_lookup, runs_is_run by done. done.
Qed.

(** X2.  The full scan loses no patched byte and covers none twice: every
    enumerated fact [(ea, v)] lies in a returned patch, which holds [v] at
    the offset [ea - k], and no other returned patch covers [ea]. *)
Theorem patches_partition (d : ida) (lo hi ea : Z) (v : byte) :
  strictly_increasing (pb_ea <$> ida_patched d) →
  (ea, v) ∈ facts_in d lo hi →
  ∃ k p,
    _collect_continuous_patches d (Some lo) (Some hi) false !! k = Some p
    ∧ k ≤ ea
    ∧ Patch_bytes p !! Z.to_nat (ea - k) = Some v
    ∧ ∀ k' p',
        _collect_continuous_patches d (Some lo) (Some hi) false !! k' = Some p' →
        k' ≤ ea < k' + Z.of_nat (length (Patch_bytes p')) → k' = k.
Proof.
  intros Hs Hin. pose proof (facts_in_increasing d lo hi Hs) as Hinc.
  destruct (runs_cover _ _ _ Hin) as (s & bs & i & Hr & -> & Hi).
  exists s, (mkPatch s bs). split_and!.
  - apply collect_false_is_run; [done|]. split; [done|]. by apply runs_is_run.
  - lia.
  - simpl. by replace (Z.to_nat (s + Z.of_nat i - s)) with i by lia.
  - intros k' p' Hp' [Hle Hlt].
    apply collect_false_is_run in Hp' as [_ (Hne' & Hcov' & Hsf' & Hef')]; [|done].
    apply runs_is_run in Hr as (Hne & Hcov & Hsf & Hef); [|done].
    apply lookup_lt_Some in Hi.
    destruct (Z.lt_trichotomy k' s) as [Hlt'|[Heq|Hgt]]; [|done|].
    + exfalso. apply Hsf.
      destruct (lookup_lt_is_Some_2 (Patch_bytes p') (Z.to_nat (s - 1 - k'))) as [x Hx];
        [lia|].
      apply list_elem_of_fmap. exists (s - 1, x). split; [done|].
      specialize (Hcov' _ _ Hx). by replace (k' + Z.of_nat (Z.to_nat (s - 1 - k')))
        with (s - 1) in Hcov' by lia.
    + exfalso. apply Hsf'.
      destruct (lookup_lt_is_Some_2 bs (Z.to_nat (k' - 1 - s))) as [x Hx]; [lia|].
      apply list_elem_of_fmap. exists (k' - 1, x). split; [done|].
      specialize (Hcov _ _ Hx). by replace (s + Z.of_nat (Z.to_nat (k' - 1 - s)))
        with (k' - 1) in Hcov by lia.
Qed.

Lemma patches_partition_witness :
  strictly_increasing (pb_ea <$> ida_patched spec_example)
  ∧ (21, x65) ∈ facts_in spec_example 0 64
  ∧ ∃ k p,
      _collect_continuous_patches spec_example (Some 0) (Some 64) false !! k = Some p
      ∧ k ≤ 21
      ∧ Patch_bytes p !! Z.to_nat (21 - k) = Some x65.
Proof.
  assert (strictly_increasing (pb_ea <$> ida_patched spec_example)) as Hs
    by solve_increasing.
  assert ((21, x65) ∈ facts_in spec_example 0 64) as Hin.
  { change (facts_in spec_example 0 64) with
      [(10, x61); (11, x62); (12, x63); (20, x64); (21, x65); (30, x66)].
    solve_elem_of. }
  split_and!; [exact Hs|exact Hin|].
  destruct (patches_partition spec_example 0 64 21 x65 Hs Hin)
    as (k & p & Hp & Hle & Hb & _).
  by exists k, p.
Defined.

(** X1.  When the patched bytes are enumerated in strictly increasing address
    order, the full scan returns a patch at the key [k] exactly when its
    address is [k] and its bytes are a maximal run that starts at [k]: they
    are not empty, byte [i] is the patched value at [k + i], and neither
    [k - 1] nor the address after the last byte is a patched address of the
    range. *)
Theorem patches_lookup_spec (d : ida) (lo hi k : Z) (p : Patch) :
  strictly_increasing (pb_ea <$> ida_patched d) →
  _collect_continuous_patches d (Some lo) (Some hi) false !! k = Some p
  ↔ Patch_addr p = k ∧ is_run (facts_in d lo hi) k (Patch_bytes p).
Proof. apply collect_false_is_run. Qed.

Lemma patches_lookup_spec_witness :
  strictly_increasing (pb_ea <$> ida_patched spec_example)
  ∧ _collect_continuous_patches spec_example (Some 0) (Some 64) false !! 20
    = Some (mkPatch 20 [x64; x65])
  ∧ is_run (facts_in spec_example 0 64) 20 [x64; x65].
Proof.
  assert (strictly_increasing (pb_ea <$> ida_patched spec_example)) as Hs
    by solve_increasing.
  split_and!; [exact Hs|reflexivity|].
  exact (proj2 (proj1 (patches_lookup_spec spec_example 0 64 20
                         (mkPatch 20 [x64; x65]) Hs) eq_refl)).
Defined.

(** ** The stopping scan and the point lookup *)

Lemma first_run_and_gap_prefix (rs : list (Z * bytes)) (k : Z) (bs : bytes) :
  (k, bs) ∈ first_run_and_gap rs → ∃ bs', (k, bs') ∈ rs ∧ bs `prefix_of` bs'.
Proof.
  destruct rs as [|r1 [|[s2 bs2] rs]]; simpl.
  - by intros ?%elem_of_nil.
  - intros <-%list_elem_of_singleton. exists bs. split; [left|done].
  - intros [<-|Hin]%elem_of_cons.
    + exists bs. split; [left|done].
    + apply list_elem_of_singleton in Hin. simplify_eq.
      exists bs2. split; [right; left|apply prefix_take].
Qed.

Lemma first_run_and_gap_keys_NoDup (rs : list (Z * bytes)) :
  NoDup rs.*1 → NoDup (first_run_and_gap rs).*1.
Proof.
  destruct rs as [|[s1 bs1] [|[s2 bs2] rs]]; simpl; [done|done|].
  intros Hnd. apply NoDup_cons in Hnd as [Hnin Hnd].
  apply NoDup_cons. split; [|apply NoDup_singleton].
  intros ->%list_elem_of_singleton. apply Hnin. left.
Qed.

Lemma first_run_and_gap_length (rs : list (Z * bytes)) :
  (length (first_run_and_gap rs) ≤ 2)%nat.
Proof. destruct rs as [|r1 [|[s2 bs2] rs]]; simpl; lia. Qed.

(** X3.  With [stop_after_first] the result has at most two entries; each
    entry has the key of an entry of the full scan and a prefix of its bytes;
    and the entry at the first enumerated address is there and is the same
    as in the full scan. *)
Theorem stop_after_first_against_full_scan (d : ida) (lo hi : Z) :
  strictly_increasing (pb_ea <$> ida_patched d) →
  (size (_collect_continuous_patches d (Some lo) (Some hi) true) ≤ 2)%nat
  ∧ (∀ k p,
       _collect_continuous_patches d (Some lo) (Some hi) true !! k = Some p →
       ∃ p', _collect_continuous_patches d (Some lo) (Some hi) false !! k = Some p'
             ∧ Patch_addr p = k
             ∧ Patch_bytes p `prefix_of` Patch_bytes p')
  ∧ (∀ ea v rest,
       facts_in d lo hi = (ea, v) :: rest →
       _collect_continuous_patches d (Some lo) (Some hi) true !! ea
       = _collect_continuous_patches d (Some lo) (Some hi) false !! ea
       ∧ is_Some (_collect_continuous_patches d (Some lo) (Some hi) true !! ea)).
Proof.
  intros Hs. pose proof (facts_in_increasing d lo hi Hs) as Hinc.
  pose proof (runs_starts_NoDup _ Hinc) as Hnd.
  rewrite collect_true_runs, collect_false_runs by done.
  split_and!.
  - rewrite map_size_list_to_map.
    + rewrite length_fmap. apply first_run_and_gap_length.
    + rewrite patch_of_run_keys. by apply first_run_and_gap_keys_NoDup.
  - intros k p Hp. apply elem_of_list_to_map in Hp.
    2:{ rewrite patch_of_run_keys. by apply first_run_and_gap_keys_NoDup. }
    apply list_elem_of_fmap in Hp as ([s bs] & Heq & Hin).
    unfold patch_of_run in Heq. simpl in Heq. simplify_eq.
    destruct (first_run_and_gap_prefix _ _ _ Hin) as (bs' & Hr & Hpre).
    exists (mkPatch s bs'). split_and!; [|done|done].
    by apply runs_map_lookup.
  - intros ea v rest HF. rewrite HF.
    destruct (runs_cons_head ea v rest) as (bs & rs & ->).
    destruct rs as [|[s2 bs2] rs]; simpl.
    + by rewrite lookup_insert_eq.
    + rewrite !lookup_insert_eq. eauto.
Qed.

Lemma stop_after_first_against_full_scan_witness :
  strictly_increasing (pb_ea <$> ida_patched spec_example)
  ∧ (size (_collect_continuous_patches spec_example (Some 0%Z) (Some 64%Z) true) ≤ 2)%nat
  ∧ _collect_continuous_patches spec_example (Some 0) (Some 64) true !! 10
    = _collect_continuous_patches spec_example (Some 0) (Some 64) false !! 10.
Proof.
  assert (strictly_increasing (pb_ea <$> ida_patched spec_example)) as Hs
    by solve_increasing.
  destruct (stop_after_first_against_full_scan spec_example 0 64 Hs)
    as (Hsize & _ & Hfirst).
  split_and!; [exact Hs|exact Hsize|].
  exact (proj1 (Hfirst 10 x61 [(11, x62); (12, x63); (20, x64); (21, x65); (30, x66)]
                  eq_refl)).
Defined.

Lemma get_patch_first_run (self : IDAInterface) (d : ida) (a : Z) :
  _max_patch_size self = 0xff →
  strictly_increasing (pb_ea <$> ida_patched d) →
  _get_patch self d a
  = match runs (facts_in d (a - 1) (a + 255)) with
    | (s, bs) :: _ => if decide (s = a) then Some (mkPatch a bs) else None
    | [] => None
    end.
Proof.
  intros Hmax Hs. unfold _get_patch. rewrite Hmax.
  rewrite collect_true_runs by done.
  apply first_run_lookup; [by apply facts_in_increasing|].
  eapply Forall_impl; [apply facts_in_window|]. simpl. intros. lia.
Qed.

Lemma facts_in_elem (d : ida) (lo hi : Z) (f : Z * byte) :
  f ∈ facts_in d lo hi ↔ f ∈ fact_of <$> ida_patched d ∧ lo ≤ f.1 < hi.
Proof.
  unfold facts_in, idaapi.patched_in. rewrite !list_elem_of_fmap. split.
  - intros (pb & -> & Hpb). apply list_elem_of_filter in Hpb as [Hr Hpb].
    split; [by exists pb|done].
  - intros [(pb & -> & Hpb) Hr]. exists pb. split; [done|].
    by apply list_elem_of_filter.
Qed.

Lemma facts_in_addr (d : ida) (lo hi k : Z) :
  k ∈ (facts_in d lo hi).*1 ↔ patched_at d k ∧ lo ≤ k < hi.
Proof.
  unfold patched_at. rewrite !list_elem_of_fmap. split.
  - intros (f & -> & Hf). apply facts_in_elem in Hf as [Hf Hr]. split; [|done].
    apply list_elem_of_fmap in Hf as (pb & -> & Hpb). by exists pb.
  - intros [(pb & -> & Hpb) Hr]. exists (fact_of pb). split; [done|].
    apply facts_in_elem. split; [|done]. apply list_elem_of_fmap. by exists pb.
Qed.

(** X4.  When all patched bytes lie between the bounds of the database,
    [_get_patch a] is the entry of [_patches] at [a] cut to its first 255
    bytes, and [None] when [_patches] has no entry at [a]. *)
Theorem get_patch_is_patches_truncated (self : IDAInterface) (d : ida) (a lo hi : Z) :
  _max_patch_size self = 0xff →
  strictly_increasing (pb_ea <$> ida_patched d) →
  idaapi.inf_get_min_ea d = Some lo →
  idaapi.inf_get_max_ea d = Some hi →
  Forall (λ pb, lo ≤ pb_ea pb < hi) (ida_patched d) →
  _get_patch self d a
  = (λ p', mkPatch a (take 255 (Patch_bytes p'))) <$> (_patches d !! a).
Proof.
  intros Hmax Hs Hlo Hhi Hall.
  assert (∀ k, patched_at d k → lo ≤ k < hi) as Hrange.
  { intros k (pb & -> & Hpb)%list_elem_of_fmap.
    rewrite Forall_forall in Hall. by apply Hall. }
  assert (_patches d = _collect_continuous_patches d (Some lo) (Some hi) false) as ->.
  { unfold _patches, _collect_continuous_patches. by rewrite Hlo, Hhi. }
  rewrite get_patch_first_run by done.
  set (F := facts_in d lo hi). set (W := facts_in d (a - 1) (a + 255)).
  pose proof (facts_in_increasing d lo hi Hs) as HF.
  pose proof (facts_in_increasing d (a - 1) (a + 255) Hs) as HW.
  fold F in HF. fold W in HW.
  assert (∀ f, f ∈ W ↔ f ∈ F ∧ a - 1 ≤ f.1 < a + 255) as HWF.
  { intros f. unfold W, F. rewrite !facts_in_elem. split.
    - intros [Hf Hr]. split; [split; [done|]|done].
      apply Hrange. unfold patched_at.
      apply list_elem_of_fmap in Hf as (pb & -> & Hpb).
      apply list_elem_of_fmap. by exists pb.
    - intros [[Hf _] Hr]. done. }
  assert (∀ k, k ∈ W.*1 ↔ k ∈ F.*1 ∧ a - 1 ≤ k < a + 255) as HWa.
  { intros k. rewrite !list_elem_of_fmap. split.
    - intros (f & -> & Hf). apply HWF in Hf as [Hf Hr]. split; [by exists f|done].
    - intros [(f & -> & Hf) Hr]. exists f. split; [done|]. by apply HWF. }
  destruct (_collect_continuous_patches d (Some lo) (Some hi) false !! a)
    as [p'|] eqn:Hp; simpl.
  - apply collect_false_is_run in Hp as [Hp (Hne & Hcov & Hsf & Hef)]; [|done].
    fold F in Hcov, Hsf, Hef.
    destruct (Patch_bytes p') as [|b0 bs'] eqn:Hb; [done|].
    assert ((a, b0) ∈ W) as H0.
    { apply HWF. split; [|simpl; lia].
      specialize (Hcov 0%nat b0 eq_refl). by rewrite Z.add_0_r in Hcov. }
    destruct (runs W) as [|[s bs] rs] eqn:E.
    { apply runs_nil_inv in E. rewrite E in H0. by apply elem_of_nil in H0. }
    assert ((s, bs) ∈ runs W) as Hr by (rewrite E; left).
    assert (s = a) as ->.
    { pose proof (runs_first_start _ _ _ _ HW E a) as Hmin.
      assert (a ∈ W.*1) as Ha by (apply list_elem_of_fmap; by exists (a, b0)).
      specialize (Hmin Ha).
      assert (s ∈ W.*1) as Hsw by (by apply runs_starts in Hr).
      apply HWa in Hsw as [HsF Hsr].
      destruct (decide (s = a - 1)) as [->|]; [done|lia]. }
    rewrite decide_True by done. do 2 f_equal.
    apply runs_is_run in Hr as (Hne' & Hcov' & Hsf' & Hef'); [|done].
    apply (run_bytes_unique W a).
    + by apply strictly_increasing_NoDup.
    + exact Hcov'.
    + intros i x Hi. apply lookup_take_Some in Hi as [Hi Hlt].
      apply HWF. split; [by apply Hcov|simpl; lia].
    + exact Hef'.
    + rewrite length_take. intros Hin. apply HWa in Hin as [Hin Hr].
      destruct (decide (length (b0 :: bs') ≤ 255)%nat).
      * apply Hef.
        by replace (255 `min` length (b0 :: bs'))%nat with (length (b0 :: bs')) in Hin by lia.
      * lia.
  - destruct (runs W) as [|[s bs] rs] eqn:E; [done|].
    destruct (decide (s = a)) as [->|]; [|done]. exfalso.
    assert ((a, bs) ∈ runs W) as Hr by (rewrite E; left).
    apply runs_is_run in Hr as (Hne' & Hcov' & Hsf' & Hef'); [|done].
    destruct bs as [|b0 bs]; [done|].
    pose proof (Hcov' 0%nat b0 eq_refl) as H0. rewrite Z.add_0_r in H0.
    apply HWF in H0 as [H0 _].
    assert ((a - 1) ∉ F.*1) as HsF.
    { intros Hin. apply Hsf'. apply HWa. split; [done|lia]. }
    destruct (runs_cover _ _ _ H0) as (s' & bs' & i & Hr' & Hk & Hi).
    destruct i as [|i].
    + rewrite Z.add_0_r in Hk. subst s'.
      assert (_collect_continuous_patches d (Some lo) (Some hi) false !! a
              = Some (mkPatch a bs')) as Hsome.
      { rewrite collect_false_runs by done. by apply runs_map_lookup. }
      congruence.
    + apply HsF. destruct (lookup_lt_is_Some_2 bs' i) as [x Hx].
      { apply lookup_lt_Some in Hi. lia. }
      apply list_elem_of_fmap. exists (s' + Z.of_nat i, x). split; [simpl; lia|].
      by eapply runs_run_covered.
Qed.

Lemma get_patch_is_patches_truncated_witness :
  _max_patch_size (__init__ false) = 0xff
  ∧ strictly_increasing (pb_ea <$> ida_patched spec_example)
  ∧ idaapi.inf_get_min_ea spec_example = Some 0
  ∧ idaapi.inf_get_max_ea spec_example = Some (2 ^ 64)
  ∧ Forall (λ pb, 0 ≤ pb_ea pb < 2 ^ 64) (ida_patched spec_example)
  ∧ _get_patch (__init__ false) spec_example 20
    = (λ p', mkPatch 20 (take 255 (Patch_bytes p'))) <$> (_patches spec_example !! 20)
  ∧ _get_patch (__init__ false) spec_example 20 = Some (mkPatch 20 [x64; x65]).
Proof.
  assert (strictly_increasing (pb_ea <$> ida_patched spec_example)) as Hs
    by solve_increasing.
  assert (Forall (λ pb, 0 ≤ pb_ea pb < 2 ^ 64) (ida_patched spec_example)) as Hall.
  { simpl. repeat first [ by apply Forall_nil
                         | apply Forall_cons; split; [simpl; split; [lia|reflexivity]|] ]. }
  split_and!; [reflexivity|exact Hs|reflexivity|reflexivity|exact Hall| |reflexivity].
  exact (get_patch_is_patches_truncated (__init__ false) spec_example 20 0 (2 ^ 64)
           eq_refl Hs eq_refl eq_refl Hall).
Defined.

(** ** Ranges and enumeration order *)

Lemma filter_none {A : Type} (P : A → Prop) `{!∀ x, Decision (P x)} (l : list A) :
  Forall (λ x, ¬ P x) l → filter P l = [].
Proof.
  induction 1 as [|x l Hx Hl IH]; [done|].
  by rewrite filter_cons, decide_False.
Qed.

Lemma patched_in_split (l : list patched_byte) (lo m hi : Z) :
  strictly_increasing (pb_ea <$> l) → lo ≤ m ≤ hi →
  filter (λ pb, lo ≤ pb_ea pb < hi) l
  = filter (λ pb, lo ≤ pb_ea pb < m) l ++ filter (λ pb, m ≤ pb_ea pb < hi) l.
Proof.
  intros Hs Hm. induction l as [|pb l IH]; [done|].
  rewrite fmap_cons in Hs. apply strictly_increasing_cons in Hs as [Hlt Hs].
  specialize (IH Hs). rewrite !filter_cons.
  destruct (decide (lo ≤ pb_ea pb < hi)) as [Hin|Hout].
  - destruct (decide (lo ≤ pb_ea pb < m)) as [H1|H1].
    + rewrite decide_False by lia. by rewrite IH.
    + rewrite decide_True by lia. rewrite IH.
      rewrite (filter_none (λ pb0, lo ≤ pb_ea pb0 < m)); [done|].
      rewrite Forall_fmap in Hlt. eapply Forall_impl; [exact Hlt|].
      simpl. intros. lia.
  - rewrite !decide_False by lia. done.
Qed.

Lemma facts_in_split (d : ida) (lo m hi : Z) :
  strictly_increasing (pb_ea <$> ida_patched d) → lo ≤ m ≤ hi →
  facts_in d lo hi = facts_in d lo m ++ facts_in d m hi.
Proof.
  intros Hs Hm. unfold facts_in, idaapi.patched_in.
  by rewrite (patched_in_split _ lo m hi), fmap_app.
Qed.

Lemma runs_app_at_gap (F1 F2 : list (Z * byte)) :
  (∀ l x p y, last F1 = Some (l, x) → head F2 = Some (p, y) → p ≠ l + 1) →
  runs (F1 ++ F2) = runs F1 ++ runs F2.
Proof.
  intros Hgap. destruct F2 as [|[p y] post]; [by rewrite !app_nil_r|].
  destruct (decide (F1 = [])) as [->|Hne]; [done|].
  apply exists_last in Hne as (pre & [l x] & ->).
  rewrite <- app_assoc. simpl. apply runs_app_split.
  apply (Hgap l x p y); [by rewrite last_snoc|done].
Qed.

(** X5.  A scan of [lo, hi) is the union of the scans of [lo, m) and
    [m, hi), which have no key in common, unless [m] cuts a run, that is,
    unless the bytes at [m - 1] and at [m] are both patched inside the
    range. *)
Theorem collect_splits_at_gap (d : ida) (lo m hi : Z) :
  strictly_increasing (pb_ea <$> ida_patched d) →
  lo ≤ m ≤ hi →
  ¬ (patched_at d (m - 1) ∧ patched_at d m ∧ lo < m < hi) →
  _collect_continuous_patches d (Some lo) (Some hi) false
  = _collect_continuous_patches d (Some lo) (Some m) false
    ∪ _collect_continuous_patches d (Some m) (Some hi) false
  ∧ _collect_continuous_patches d (Some lo) (Some m) false
    ##ₘ _collect_continuous_patches d (Some m) (Some hi) false.
Proof.
  intros Hs Hm Hgap.
  rewrite !collect_false_runs by done.
  rewrite (facts_in_split d lo m hi) by done.
  split.
  - rewrite runs_app_at_gap, fmap_app, list_to_map_app; [done|].
    intros l x p y Hl Hp ->. apply Hgap.
    apply last_Some_elem_of in Hl. apply head_Some_elem_of in Hp.
    apply facts_in_elem in Hl as [Hl1 Hl2]. apply facts_in_elem in Hp as [Hp1 Hp2].
    simpl in *. assert (l = m - 1) as -> by lia.
    replace (m - 1 + 1) with m in * by lia.
    split_and!; [| |lia|lia].
    + unfold patched_at. apply list_elem_of_fmap in Hl1 as (pb & Heq & Hpb).
      apply list_elem_of_fmap. exists pb. split; [|done]. by injection Heq.
    + unfold patched_at. apply list_elem_of_fmap in Hp1 as (pb & Heq & Hpb).
      apply list_elem_of_fmap. exists pb. split; [|done]. by injection Heq.
  - apply map_disjoint_spec. intros k p1 p2 H1 H2.
    apply runs_map_lookup in H1 as [_ H1]; [|by apply facts_in_increasing].
    apply runs_map_lookup in H2 as [_ H2]; [|by apply facts_in_increasing].
    apply runs_starts, facts_in_addr in H1 as [_ H1].
    apply runs_starts, facts_in_addr in H2 as [_ H2]. simpl in *. lia.
Qed.

Lemma collect_splits_at_gap_witness :
  strictly_increasing (pb_ea <$> ida_patched spec_example)
  ∧ 0 ≤ 15 ≤ 64
  ∧ ¬ (patched_at spec_example (15 - 1) ∧ patched_at spec_example 15 ∧ 0 < 15 < 64)
  ∧ _collect_continuous_patches spec_example (Some 0) (Some 64) false
    = _collect_continuous_patches spec_example (Some 0) (Some 15) false
      ∪ _collect_continuous_patches spec_example (Some 15) (Some 64) false.
Proof.
  assert (strictly_increasing (pb_ea <$> ida_patched spec_example)) as Hs
    by solve_increasing.
  assert (0 ≤ 15 ≤ 64) as Hm by lia.
  assert (¬ (patched_at spec_example (15 - 1) ∧ patched_at spec_example 15
             ∧ 0 < 15 < 64)) as Hgap.
  { intros (_ & H15 & _). unfold patched_at in H15. simpl in H15.
    repeat (apply elem_of_cons in H15 as [H15|H15]; [lia|]).
    by apply elem_of_nil in H15. }
  split_and!; [exact Hs|lia|lia|exact Hgap|].
  exact (proj1 (collect_splits_at_gap spec_example 0 15 64 Hs Hm Hgap)).
Defined.

Lemma dict_setitem_elem {V : Type} (k : Z) (v : V) (d : list (Z * V)) (it : Z * V) :
  it ∈ dict_setitem k v d → it = (k, v) ∨ it ∈ d.
Proof.
  induction d as [|[k' v'] d IH]; simpl.
  - intros ->%list_elem_of_singleton. by left.
  - destruct (decide (k' = k)) as [->|Hne].
    + intros [->|Hin]%elem_of_cons; [by left|]. right. by right.
    + intros [->|Hin]%elem_of_cons; [right; left|].
      destruct (IH Hin) as [->|Hd]; [by left|]. right. by right.
Qed.

Lemma collector_items (l : list patched_byte) (d0 : list (Z * bytes)) (it : Z * bytes) :
  it ∈ foldl (λ s pb, _patch_collector (pb_ea pb) (pb_fpos pb) (pb_org_val pb)
                                       (pb_patch_val pb) s) d0 l →
  it ∈ d0 ∨ ∃ pb, pb ∈ l ∧ it = (pb_ea pb, [pb_patch_val pb]).
Proof.
  revert d0. induction l as [|pb l IH]; intros d0; simpl; [by left|].
  intros Hin. destruct (IH _ Hin) as [Hd|(pb' & Hpb' & ->)].
  - apply dict_setitem_elem in Hd as [->|Hd]; [|by left].
    right. exists pb. split; [left|done].
  - right. exists pb'. split; [by right|done].
Qed.

Lemma coalesce_keeps (Q : Z → Prop) (saf : bool) (items : list (Z * bytes))
    (st : coalescer) :
  Forall (λ it, Q it.1 ∧ it.2 ≠ []) items →
  (∀ k bs, continuous_patches st !! k = Some bs → bs ≠ [] ∧ Q k) →
  (∀ ps, patch_start st = Some ps → Q ps) →
  ∀ k bs, continuous_patches (coalesce saf items st) !! k = Some bs → bs ≠ [] ∧ Q k.
Proof.
  revert st. induction items as [|[pos patch] items IH]; intros st Hit Hcp Hps; [done|].
  apply Forall_cons in Hit as [[HQ Hne] Hit]. simpl in HQ, Hne.
  assert (∀ ps, next_patch_start st pos = Some ps → Q ps) as Hnext.
  { unfold next_patch_start. destruct (starts_run st pos); [by intros ps [= <-]|done]. }
  assert (∀ k bs,
            match next_patch_start st pos with
            | Some k0 => defaultdict_iadd k0 patch (continuous_patches st)
            | None => continuous_patches st
            end !! k = Some bs → bs ≠ [] ∧ Q k) as Hcp'.
  { intros k bs. destruct (next_patch_start st pos) as [k0|] eqn:E; [|apply Hcp].
    unfold defaultdict_iadd. destruct (decide (k = k0)) as [->|Hk].
    - rewrite lookup_insert_eq. intros [= <-]. split; [|by apply Hnext].
      intros Happ. apply app_eq_nil in Happ as [_ ->]. done.
    - rewrite lookup_insert_ne by done. apply Hcp. }
  simpl.
  destruct (starts_run st pos && bool_decide (last_pos st ≠ None) && saf); [exact Hcp'|].
  apply IH; [done|exact Hcp'|exact Hnext].
Qed.

(** X6.  In every enumeration order, for every bound and in both modes: a
    returned patch has the address of its key, at least one byte, and a key
    that is the address of a patched byte. *)
Theorem collected_patches_well_formed (d : ida) (min_addr max_addr : option Z)
    (stop_after_first : bool) (k : Z) (p : Patch) :
  _collect_continuous_patches d min_addr max_addr stop_after_first !! k = Some p →
  Patch_addr p = k ∧ Patch_bytes p ≠ [] ∧ patched_at d k.
Proof.
  unfold _collect_continuous_patches.
  destruct (match min_addr with Some _ => min_addr | None => idaapi.inf_get_min_ea d end)
    as [lo|]; [|done].
  destruct (match max_addr with Some _ => max_addr | None => idaapi.inf_get_max_ea d end)
    as [hi|]; [|done].
  unfold normalize. rewrite map_lookup_imap.
  destruct (continuous_patches _ !! k) as [bs|] eqn:E; simpl; [|done].
  intros [= <-]. simpl. split; [done|].
  revert E. apply (coalesce_keeps (patched_at d)); [|done|done].
  apply Forall_forall. intros it Hit.
  apply collector_items in Hit as [Hit|(pb & Hpb & ->)]; [by apply elem_of_nil in Hit|].
  simpl. split; [|done].
  apply list_elem_of_filter in Hpb as [_ Hpb].
  unfold patched_at. apply list_elem_of_fmap. by exists pb.
Qed.

Lemma collected_patches_well_formed_witness :
  _collect_continuous_patches spec_example (Some 9) None true !! 20
  = Some (mkPatch 20 [x64])
  ∧ patched_at spec_example 20.
Proof.
  assert (_collect_continuous_patches spec_example (Some 9) None true !! 20
          = Some (mkPatch 20 [x64])) as H by reflexivity.
  split; [exact H|].
  exact (proj2 (proj2 (collected_patches_well_formed spec_example (Some 9) None true
                         20 (mkPatch 20 [x64]) H))).
Defined.

(** ** The adapter object over a sequence of calls *)

Lemma adapter_step_refl (s : session) : adapter_step s s.
Proof.
  split_and!; [done|done|done|by left|].
  exists []. rewrite app_nil_r. split_and!; [done|constructor|by left].
Qed.

Lemma adapter_step_trans (s1 s2 s3 : session) :
  adapter_step s1 s2 → adapter_step s2 s3 → adapter_step s1 s3.
Proof.
  intros (Hc1 & Hm1 & Hh1 & Hx1 & l1 & Hl1 & Hf1 & Ho1)
         (Hc2 & Hm2 & Hh2 & Hx2 & l2 & Hl2 & Hf2 & Ho2).
  split_and!; [congruence|congruence|congruence| |].
  - destruct Hx2 as [Hx2|Hx2]; [|by right].
    rewrite Hx2. exact Hx1.
  - exists (l1 ++ l2). split_and!.
    + by rewrite Hl2, Hl1, app_assoc.
    + by apply Forall_app.
    + destruct Ho1 as [->|Ho1]; [|by right].
      destruct Ho2 as [->|Ho2]; [by left|]. right. congruence.
Qed.

(** A step that leaves the adapter object and the log alone. *)
Lemma adapter_step_same (s s' : session) :
  ses_self s' = ses_self s → ses_log s' = ses_log s → adapter_step s s'.
Proof.
  intros Hself Hlog. unfold adapter_step. rewrite Hself, Hlog.
  split_and!; [done|done|done|by left|].
  exists []. rewrite app_nil_r. split_and!; [done|constructor|by left].
Qed.

Section StepSound.
Context (R : session → session → Prop).
Hypothesis R_refl : ∀ s, R s s.
Hypothesis R_trans : ∀ s1 s2 s3, R s1 s2 → R s2 s3 → R s1 s3.

Lemma step_sound_ret {A : Type} (a : A) : step_sound R (mret a).
Proof. intros s. apply R_refl. Qed.

Lemma step_sound_gets {A : Type} (f : session → A) : step_sound R (gets f).
Proof. intros s. apply R_refl. Qed.

Lemma step_sound_bind {A B : Type} (m : M A) (f : A → M B) :
  step_sound R m → (∀ a, step_sound R (f a)) → step_sound R (m ≫= f).
Proof.
  intros Hm Hf s. specialize (Hm s). unfold mbind, M_bind.
  destruct (m s) as [[a|e] s']; simpl in *; [|done].
  eapply R_trans; [exact Hm|apply Hf].
Qed.

Lemma step_sound_try {A : Type} (m handler : M A) :
  step_sound R m → step_sound R handler →
  step_sound R (try_except_Exception m handler).
Proof.
  intros Hm Hh s. specialize (Hm s). unfold try_except_Exception.
  destruct (m s) as [[a|e] s']; simpl in *; [done|].
  destruct (isinstance_Exception e); [|done].
  eapply R_trans; [exact Hm|apply Hh].
Qed.

Lemma step_sound_hexrays_decompile (ea : Z) : step_sound R (ida_hexrays.decompile ea).
Proof. intros s. apply R_refl. Qed.
End StepSound.

Lemma adapter_sound_backend {A : Type} (f : ida → Result A * ida) :
  step_sound adapter_step (backend f).
Proof.
  intros s. unfold backend. destruct (f (ses_db s)) as [r d]. by apply adapter_step_same.
Qed.

Lemma adapter_sound_put_db (d : ida) : step_sound adapter_step (put_db d).
Proof. intros s. by apply adapter_step_same. Qed.

Lemma adapter_sound_set_ctx (fa : Z) (name : string) :
  step_sound adapter_step
    (gets ses_self ≫= λ self, put_self (set_updated_ctx (Some (context_of fa name)) self)).
Proof.
  intros s. split_and!; [done|done|done|right; by eexists _, _|].
  exists []. simpl. rewrite app_nil_r. split_and!; [done|constructor|by left].
Qed.

Lemma adapter_sound_decompiler_available :
  step_sound adapter_step decompiler_available.
Proof.
  intros s. unfold decompiler_available, mbind, M_bind, gets. simpl.
  destruct (_decompiler_available (ses_self s)) as [b|] eqn:E; simpl.
  - apply adapter_step_refl.
  - split_and!; [done|done|done|by left|].
    exists []. simpl. rewrite app_nil_r. split_and!; [done|constructor|by left].
Qed.

Create HintDb adapter.

#[local] Hint Resolve adapter_sound_backend adapter_sound_put_db adapter_sound_set_ctx
  adapter_sound_decompiler_available : adapter.
#[local] Hint Extern 1 (step_sound adapter_step (mret _)) =>
  apply (step_sound_ret adapter_step adapter_step_refl) : adapter.
#[local] Hint Extern 1 (step_sound adapter_step (gets _)) =>
  apply (step_sound_gets adapter_step adapter_step_refl) : adapter.
#[local] Hint Extern 1 (step_sound adapter_step (ida_hexrays.decompile _)) =>
  apply (step_sound_hexrays_decompile adapter_step adapter_step_refl) : adapter.

Ltac adapter_sound_tac :=
  cbv zeta;
  repeat first
    [ progress auto with adapter
    | apply adapter_sound_set_ctx
    | apply (step_sound_try adapter_step adapter_step_trans)
    | apply (step_sound_bind adapter_step adapter_step_trans); [|intros ?]
    | match goal with
      | |- step_sound _ (if ?b then _ else _) => destruct b
      | |- step_sound _ (match ?x with _ => _ end) => destruct x
      end ].

Lemma adapter_sound_set_struct (compat : compat_module) (struct : Struct)
    (header members : bool) :
  step_sound adapter_step (_set_struct compat struct header members).
Proof.
  intros s. unfold _set_struct.
  change ((gets ses_self ≫= ?f) s) with (f (ses_self s) s). cbv beta.
  destruct (_crashing_version (ses_self s)) eqn:Hv; simpl andb.
  - destruct (bool_decide (Struct_name struct = "gcc_va_list")).
    + unfold mbind, M_bind, _l.critical. simpl.
      split_and!; [done|done|done|by left|].
      eexists [_]. split_and!; [reflexivity|by repeat constructor|by right].
    + cut (∀ m : M bool, step_sound adapter_step m → adapter_step s (m s).2);
        [intros H; apply H|by intros m Hm]. adapter_sound_tac.
  - cut (∀ m : M bool, step_sound adapter_step m → adapter_step s (m s).2);
      [intros H; apply H|by intros m Hm]. adapter_sound_tac.
Qed.

Lemma exec_adapter_step (compat : compat_module) (c : call) (s : session) :
  adapter_step s (exec compat c s).
Proof.
  destruct c; unfold exec, after;
    match goal with |- adapter_step _ (?m _).2 => cut (step_sound adapter_step m); [by intros H|] end;
    try apply adapter_sound_set_struct;
    unfold binary_hash, active_context, update_active_context, binary_path,
      get_func_size, goto_address, _decompile, _set_function, _get_function,
      _functions, _set_stack_variable, _set_global_variable, _get_global_var,
      _global_vars, _get_struct, _structs, _set_enum, _get_enum,
      _enums, _set_patch, _set_comment, _get_comment, _comments,
      _set_function_header;
    adapter_sound_tac.
Qed.

Lemma exec_all_adapter_step (compat : compat_module) (calls : list call) (s : session) :
  adapter_step s (exec_all compat calls s).
Proof.
  revert s. induction calls as [|c calls IH]; intros s; simpl.
  - apply adapter_step_refl.
  - eapply adapter_step_trans; [apply exec_adapter_step|apply IH].
Qed.


(** X8.  After any sequence of method calls on a fresh adapter, a context
    returned by [active_context] has size 0 and a header that carries the
    address of the function. *)
Theorem active_context_well_formed (compat : compat_module) (calls : list call)
    (h : bool) (d : ida) (f : Function) :
  active_context (exec_all compat calls (new_session h d))
  = (Return (Some f), exec_all compat calls (new_session h d)) →
  Function_size f = 0
  ∧ ∃ name, Function_header f = Some (mkFunctionHeader name (Function_addr f)).
Proof.
  unfold active_context, gets. intros [= Hf].
  destruct (exec_all_adapter_step compat calls (new_session h d))
    as (_ & _ & _ & Hx & _).
  destruct Hx as [Hx|(fa & name & Hx)]; rewrite Hx in Hf; [done|].
  simplify_eq. split; [done|]. by exists name.
Qed.

Lemma active_context_well_formed_witness :
  active_context (exec_all compat_example example_calls (new_session false spec_example))
  = (Return (Some (context_of 0x401000 "sub_401000")),
     exec_all compat_example example_calls (new_session false spec_example))
  ∧ Function_size (context_of 0x401000 "sub_401000") = 0.
Proof.
  assert (active_context
            (exec_all compat_example example_calls (new_session false spec_example))
          = (Return (Some (context_of 0x401000 "sub_401000")),
             exec_all compat_example example_calls (new_session false spec_example)))
    as H by reflexivity.
  split; [exact H|].
  exact (proj1 (active_context_well_formed compat_example example_calls false
                  spec_example _ H)).
Defined.

Lemma bind_run {A B : Type} (m : M A) (f : A → M B) (s : session) :
  (m ≫= f) s
  = match m s with
    | (Return a, s') => f a s'
    | (Raise e, s') => (Raise e, s')
    end.
Proof. done. Qed.

Lemma backend_run {A : Type} (f : ida → Result A * ida) (s : session) :
  backend f s
  = ((f (ses_db s)).1,
     mkSession (ses_self s) (f (ses_db s)).2 (ses_log s) (ses_hexrays_inits s)).
Proof. unfold backend. by destruct (f (ses_db s)). Qed.

(** X9.  [update_active_context] does nothing at all for the addresses 0
    and [BADADDR]; for any other address the stored context is either left
    as it was, or both helpers returned and the context is the function the
    first one found, with size 0 and the name the second one gave. *)
Theorem update_active_context_cases (compat : compat_module) (addr : Z) (s : session) :
  (addr = 0 ∨ addr = idaapi.BADADDR →
   update_active_context compat addr s = (Return (), s))
  ∧ (_updated_ctx (ses_self (after (update_active_context compat addr) s))
     = _updated_ctx (ses_self s)
     ∨ ∃ fa name d1 d2,
         addr ≠ 0 ∧ addr ≠ idaapi.BADADDR
         ∧ compat_ida_func_addr compat addr (ses_db s) = (Return (Some fa), d1)
         ∧ compat_get_func_name compat fa d1 = (Return name, d2)
         ∧ update_active_context compat addr s
           = (Return (),
              mkSession (set_updated_ctx (Some (context_of fa name)) (ses_self s))
                        d2 (ses_log s) (ses_hexrays_inits s))).
Proof.
  unfold after, update_active_context. split.
  - intros [-> | ->]; [done|].
    by rewrite (bool_decide_true (idaapi.BADADDR = idaapi.BADADDR)), orb_true_r.
  - destruct (decide (addr = 0)) as [->|H0]; [by left|].
    destruct (decide (addr = idaapi.BADADDR)) as [->|Hb].
    { left. by rewrite (bool_decide_true (idaapi.BADADDR = idaapi.BADADDR)), orb_true_r. }
    rewrite !bool_decide_false by done. cbn [orb].
    rewrite bind_run, backend_run.
    destruct (compat_ida_func_addr compat addr (ses_db s)) as [[[fa|]|e] d1] eqn:E1;
      simpl; [|by left|by left].
    rewrite bind_run, backend_run. simpl.
    destruct (compat_get_func_name compat fa d1) as [[name|e] d2] eqn:E2;
      simpl; [|by left].
    right. by exists fa, name, d1, d2.
Qed.

Lemma update_active_context_cases_witness :
  (0 = 0 ∨ 0 = idaapi.BADADDR)
  ∧ update_active_context compat_example 0 probed_session = (Return (), probed_session).
Proof.
  assert (0 = 0 ∨ 0 = idaapi.BADADDR) as H by (by left).
  split; [exact H|].
  exact (proj1 (update_active_context_cases compat_example 0 probed_session) H).
Defined.

(** ** Struct writes and function calls *)

(** X10.  When the struct is not refused, [_set_struct] writes the header
    first and the members second, each only when asked for.  With both flags
    off nothing changes and the result is [False]; a header helper that
    raises ends the call before the members are written; otherwise the
    members helper runs on the database the header helper left, a raise of
    it leaves the header written, and the result is the disjunction of what
    the helpers returned. *)
Theorem set_struct_writes_in_order (compat : compat_module) (struct : Struct)
    (header members : bool) (s : session) :
  _crashing_version (ses_self s) = false ∨ Struct_name struct ≠ "gcc_va_list" →
  (header = false → members = false →
   _set_struct compat struct header members s = (Return false, s))
  ∧ (∀ e d1,
       header = true →
       compat_set_ida_struct compat struct (ses_db s) = (Raise e, d1) →
       _set_struct compat struct header members s = (Raise e, with_db d1 s))
  ∧ (∀ b1 d1 r2 d2,
       (if header then compat_set_ida_struct compat struct (ses_db s)
        else (Return false, ses_db s)) = (Return b1, d1) →
       members = true →
       compat_set_ida_struct_member_types compat struct d1 = (r2, d2) →
       _set_struct compat struct header members s
       = (match r2 with Return b2 => Return (b1 || b2) | Raise e => Raise e end,
          with_db d2 s))
  ∧ (∀ b1 d1,
       header = true →
       compat_set_ida_struct compat struct (ses_db s) = (Return b1, d1) →
       members = false →
       _set_struct compat struct header members s = (Return b1, with_db d1 s)).
Proof.
  intros Hok.
  assert (_crashing_version (ses_self s)
          && bool_decide (Struct_name struct = "gcc_va_list") = false) as Hgo.
  { destruct Hok as [->|Hn]; [done|]. rewrite bool_decide_false by done.
    apply andb_false_r. }
  split_and!.
  - intros -> -> . unfold _set_struct. cbv zeta. rewrite bind_run. unfold gets at 1.
    cbv beta iota. rewrite Hgo. by destruct s.
  - intros e d1 -> He. unfold _set_struct. cbv zeta. rewrite bind_run.
    unfold gets at 1. cbv beta iota. rewrite Hgo.
    rewrite !bind_run, backend_run, He. done.
  - intros b1 d1 r2 d2 Hh -> Hm. unfold _set_struct. cbv zeta. rewrite bind_run.
    unfold gets at 1. cbv beta iota. rewrite Hgo. rewrite bind_run. destruct header.
    + rewrite bind_run, backend_run, Hh. simpl.
      rewrite !bind_run, backend_run. simpl. rewrite Hm. by destruct r2.
    + simplify_eq. simpl. rewrite !bind_run, backend_run. simpl. rewrite Hm.
      by destruct r2.
  - intros b1 d1 -> Hh ->. unfold _set_struct. cbv zeta. rewrite bind_run.
    unfold gets at 1. cbv beta iota. rewrite Hgo.
    rewrite !bind_run, backend_run, Hh. done.
Qed.

Lemma set_struct_writes_in_order_witness :
  (_crashing_version (ses_self (new_session false spec_example)) = false
   ∨ Struct_name (mkStruct "gcc_va_list" 24 []) ≠ "gcc_va_list")
  ∧ _set_struct compat_example (mkStruct "gcc_va_list" 24 []) true true
      (new_session false spec_example)
    = (Return true,
       with_db (idaapi.patch_bytes 0 [x01] spec_example) (new_session false spec_example)).
Proof.
  assert (_crashing_version (ses_self (new_session false spec_example)) = false
          ∨ Struct_name (mkStruct "gcc_va_list" 24 []) ≠ "gcc_va_list") as H
    by (by left).
  split; [exact H|].
  exact (proj1 (proj2 (proj2 (set_struct_writes_in_order compat_example
                                (mkStruct "gcc_va_list" 24 []) true true
                                (new_session false spec_example) H)))
           true spec_example (Return true) (idaapi.patch_bytes 0 [x01] spec_example)
           eq_refl eq_refl eq_refl).
Defined.

Lemma decompiler_available_run (s : session) :
  ∃ s1, decompiler_available s = (Return (probed s), s1)
        ∧ _decompiler_available (ses_self s1) = Some (probed s)
        ∧ ses_db s1 = ses_db s
        ∧ ses_hexrays_inits s1
          = (ses_hexrays_inits s
             + match _decompiler_available (ses_self s) with Some _ => 0 | None => 1 end)%nat.
Proof.
  unfold probed, decompiler_available. rewrite bind_run.
  unfold gets at 1. cbv beta iota.
  destruct (_decompiler_available (ses_self s)) as [b|] eqn:E; simpl.
  - exists s. split_and!; [done|done|done|lia].
  - eexists. split_and!; [reflexivity|done|done|simpl; lia].
Qed.

Lemma probe_then_backend {A : Type} (F : bool → bool → ida → Result A * ida)
    (s : session) :
  let m := (h ← gets (λ s, headless (ses_self s));
            da ← decompiler_available;
            backend (F h da)) in
  (m s).1 = (F (headless (ses_self s)) (probed s) (ses_db s)).1
  ∧ ses_db (m s).2 = (F (headless (ses_self s)) (probed s) (ses_db s)).2
  ∧ _decompiler_available (ses_self (m s).2) = Some (probed s)
  ∧ ses_hexrays_inits (m s).2
    = (ses_hexrays_inits s
       + match _decompiler_available (ses_self s) with Some _ => 0 | None => 1 end)%nat.
Proof.
  cbv zeta. destruct (decompiler_available_run s) as (s1 & Hrun & Hc & Hd & Hi).
  assert ((h ← gets (λ s, headless (ses_self s));
           da ← decompiler_available;
           backend (F h da)) s
          = backend (F (headless (ses_self s)) (probed s)) s1) as ->.
  { rewrite bind_run. unfold gets at 1. cbv beta iota. by rewrite bind_run, Hrun. }
  rewrite backend_run. simpl. by rewrite Hd.
Qed.

(** X11.  [_set_function], [_get_function] and [_set_stack_variable] read
    [decompiler_available] before they call their helper: the helper gets
    [headless] and the cached value (or the answer of a first probe) on the
    database as it was, and afterwards that value is cached and at most one
    probe was made, also when the helper raises. *)
Theorem function_calls_probe_first (compat : compat_module) (s : session) :
  (∀ func,
     (_set_function compat func s).1
     = (compat_set_function compat func (headless (ses_self s)) (probed s) (ses_db s)).1
     ∧ ses_db (after (_set_function compat func) s)
       = (compat_set_function compat func (headless (ses_self s)) (probed s) (ses_db s)).2
     ∧ _decompiler_available (ses_self (after (_set_function compat func) s))
       = Some (probed s)
     ∧ ses_hexrays_inits (after (_set_function compat func) s)
       = (ses_hexrays_inits s
          + match _decompiler_available (ses_self s) with Some _ => 0 | None => 1 end)%nat)
  ∧ (∀ addr,
       (_get_function compat addr s).1
       = (compat_function compat addr (headless (ses_self s)) (probed s) (ses_db s)).1
       ∧ ses_db (after (_get_function compat addr) s)
         = (compat_function compat addr (headless (ses_self s)) (probed s) (ses_db s)).2
       ∧ _decompiler_available (ses_self (after (_get_function compat addr) s))
         = Some (probed s)
       ∧ ses_hexrays_inits (after (_get_function compat addr) s)
         = (ses_hexrays_inits s
            + match _decompiler_available (ses_self s) with Some _ => 0 | None => 1 end)%nat)
  ∧ (∀ svar,
       (_set_stack_variable compat svar s).1
       = (compat_set_stack_variable compat svar (headless (ses_self s)) (probed s)
                                    (ses_db s)).1
       ∧ ses_db (after (_set_stack_variable compat svar) s)
         = (compat_set_stack_variable compat svar (headless (ses_self s)) (probed s)
                                      (ses_db s)).2
       ∧ _decompiler_available (ses_self (after (_set_stack_variable compat svar) s))
         = Some (probed s)
       ∧ ses_hexrays_inits (after (_set_stack_variable compat svar) s)
         = (ses_hexrays_inits s
            + match _decompiler_available (ses_self s) with Some _ => 0 | None => 1 end)%nat).
Proof.
  split_and!.
  - intros func. apply (probe_then_backend (compat_set_function compat func)).
  - intros addr. apply (probe_then_backend (compat_function compat addr)).
  - intros svar. apply (probe_then_backend (compat_set_stack_variable compat svar)).
Qed.

(** ** The binary hash *)

Lemma hex_length (b : bytes) : String.length (idc.hex b) = (2 * length b)%nat.
Proof. induction b as [|x b IH]; simpl; [done|]. rewrite IH. lia. Qed.

Lemma to_N_lt_256 (x : byte) : (Byte.to_N x < 256)%N.
Proof. pose proof (Byte.to_N_bounded x). lia. Qed.

Lemma hex_digit_value (n : N) :
  (n < 16)%N →
  Ascii.N_of_ascii (idc.hex_digit n) = (if (n <? 10)%N then 48 + n else 87 + n)%N.
Proof.
  intros Hn. unfold idc.hex_digit. apply Ascii.N_ascii_embedding.
  destruct (n <? 10)%N; lia.
Qed.

Lemma hex_digit_inj (n m : N) :
  (n < 16)%N → (m < 16)%N → idc.hex_digit n = idc.hex_digit m → n = m.
Proof.
  intros Hn Hm Heq. apply (f_equal Ascii.N_of_ascii) in Heq.
  rewrite !hex_digit_value in Heq by done.
  destruct (N.ltb_spec n 10), (N.ltb_spec m 10); lia.
Qed.

Lemma hex_digit_in (n : N) : (n < 16)%N → idc.hex_digit n ∈ hex_digits.
Proof.
  intros Hn.
  assert (n ∈ [0; 1; 2; 3; 4; 5; 6; 7; 8; 9; 10; 11; 12; 13; 14; 15]%N) as Hin.
  { assert (n = 0 ∨ n = 1 ∨ n = 2 ∨ n = 3 ∨ n = 4 ∨ n = 5 ∨ n = 6 ∨ n = 7 ∨ n = 8
            ∨ n = 9 ∨ n = 10 ∨ n = 11 ∨ n = 12 ∨ n = 13 ∨ n = 14 ∨ n = 15)%N
      as H by lia.
    repeat (destruct H as [->|H]; [solve_elem_of|]). subst. solve_elem_of. }
  repeat (apply elem_of_cons in Hin as [->|Hin]; [unfold hex_digits; solve_elem_of|]).
  by apply elem_of_nil in Hin.
Qed.

Lemma hex_chars (b : bytes) (c : Ascii.ascii) :
  c ∈ String.list_ascii_of_string (idc.hex b) → c ∈ hex_digits.
Proof.
  induction b as [|x b IH]; simpl; [by intros ?%elem_of_nil|].
  pose proof (to_N_lt_256 x) as Hx.
  intros [->|[->|Hin]%elem_of_cons]%elem_of_cons; [| |by apply IH].
  - apply hex_digit_in. apply N.Div0.div_lt_upper_bound. lia.
  - apply hex_digit_in. apply N.mod_lt. lia.
Qed.

Lemma to_N_inj (x y : byte) : Byte.to_N x = Byte.to_N y → x = y.
Proof.
  intros H. pose proof (Byte.of_to_N x) as Hx. pose proof (Byte.of_to_N y) as Hy.
  rewrite H in Hx. congruence.
Qed.

Lemma hex_inj (b1 b2 : bytes) : idc.hex b1 = idc.hex b2 → b1 = b2.
Proof.
  revert b2. induction b1 as [|x b1 IH]; intros [|y b2]; simpl; [done|done|done|].
  intros [= H1 H2 H3]. f_equal; [|by apply IH].
  pose proof (to_N_lt_256 x) as Hx. pose proof (to_N_lt_256 y) as Hy.
  apply hex_digit_inj in H1;
    [|apply N.Div0.div_lt_upper_bound; lia|apply N.Div0.div_lt_upper_bound; lia].
  apply hex_digit_inj in H2; [|apply N.mod_lt; lia|apply N.mod_lt; lia].
  apply to_N_inj.
  rewrite (N.div_mod (Byte.to_N x) 16), (N.div_mod (Byte.to_N y) 16) by lia.
  by rewrite H1, H2.
Qed.

(** X12.  [binary_hash] returns two characters per byte of the digest, all
    of them among [0-9a-f], and leaves the session as it is; equal hashes
    come from equal digests. *)
Theorem binary_hash_format :
  (∀ s : session, ∃ h : string,
     binary_hash s = (Return h, s)
     ∧ String.length h = (2 * length (ida_input_file_md5 (ses_db s)))%nat
     ∧ ∀ c, c ∈ String.list_ascii_of_string h → c ∈ hex_digits)
  ∧ (∀ (s1 s2 : session),
       (binary_hash s1).1 = (binary_hash s2).1 →
       ida_input_file_md5 (ses_db s1) = ida_input_file_md5 (ses_db s2)).
Proof.
  split.
  - intros s. eexists. split_and!; [reflexivity|apply hex_length|apply hex_chars].
  - intros s1 s2. unfold binary_hash, gets. simpl. intros [= H]. by apply hex_inj.
Qed.

Lemma binary_hash_format_witness :
  binary_hash (new_session false hashed_example)
  = (Return "deadbeef", new_session false hashed_example)
  ∧ (binary_hash (new_session false hashed_example)).1
    = (binary_hash (new_session true hashed_example)).1
  ∧ ida_input_file_md5 (ses_db (new_session false hashed_example))
    = ida_input_file_md5 (ses_db (new_session true hashed_example)).
Proof.
  assert ((binary_hash (new_session false hashed_example)).1
          = (binary_hash (new_session true hashed_example)).1) as H by reflexivity.
  split_and!; [reflexivity|exact H|].
  exact (proj2 binary_hash_format _ _ H).
Defined.
